(** * renderbackend: the registration and serial-key service of [server.js]

    A shallow embedding of the Express handlers of [server.js] and of the
    two PostgreSQL tables they work on, followed by the properties of the
    service that its specification states.

    - JavaScript strings are sequences of UTF-16 code units ([jsstring]).
    - The two tables are lists of rows in insertion order.
    - A handler is a computation in the monad [M]: it threads the [World]
      (durable tables, the open transaction of the checked-out client, the
      sequences, the scripted storage faults, the random source and a trace
      of the statements sent to the storage) and either returns or throws.
    - Concurrent issuance is a machine that interleaves the statements of
      several [/api/generate-serial] requests under row locks. *)

From Stdlib Require Import List String Ascii ZArith NArith Bool Arith Lia.
Import ListNotations.

Set Implicit Arguments.

(** ** JavaScript strings *)

(** A string is its sequence of UTF-16 code units. *)
Definition jsstring : Type := list N.

Definition code (c : ascii) : N := N_of_ascii c.

(** A string literal of the source. *)
Definition lit (s : string) : jsstring := map code (list_ascii_of_string s).

Fixpoint str_eqb (a b : jsstring) : bool :=
  match a, b with
  | [], [] => true
  | x :: a', y :: b' => N.eqb x y && str_eqb a' b'
  | _, _ => false
  end.

(** ** JSON values and responses *)

#[local] Unset Elimination Schemes.
Inductive Json : Type :=
| JNull
| JBool (b : bool)
| JNum (n : Z)
| JStr (s : jsstring)
| JObj (fields : list (string * Json)).
#[local] Set Elimination Schemes.

Fixpoint assoc (k : string) (fields : list (string * Json)) : option Json :=
  match fields with
  | [] => None
  | (k', v) :: rest => if String.eqb k k' then Some v else assoc k rest
  end.

(** Property access [j.k]; [None] is [undefined]. *)
Definition get (k : string) (j : Json) : option Json :=
  match j with
  | JObj fields => assoc k fields
  | _ => None
  end.

(** What [res.status(n).json(body)] sends. *)
Record Response : Type := mkResponse { status : Z; body : Json }.

(** [res.json(body)] answers with status 200. *)
Definition json (b : Json) : Response := mkResponse 200 b.

(** The body of a request. The interface types every field as a string; a
    field that the caller left out is [None]. *)
Record Body : Type := mkBody {
  robloxUsername : option jsstring;
  discordUsername : option jsstring;
  reason : option jsstring;
  serial : option jsstring
}.

(** JavaScript truthiness of a field: [undefined] and [''] are falsy. *)
Definition truthy (v : option jsstring) : bool :=
  match v with
  | Some (_ :: _) => true
  | _ => false
  end.

(** The value bound as a query parameter. *)
Definition param (v : option jsstring) : jsstring :=
  match v with
  | Some s => s
  | None => []
  end.

(** ** The tables *)

Module Registrations.
Record row : Type := mkRow {
  id : Z;
  roblox_username : jsstring;
  discord_username : jsstring;
  created_at : Z;
  reason : option jsstring
}.
Definition to_json (r : row) : Json :=
  JObj [("id", JNum (id r));
        ("roblox_username", JStr (roblox_username r));
        ("discord_username", JStr (discord_username r));
        ("created_at", JNum (created_at r));
        ("reason", match reason r with Some s => JStr s | None => JNull end)]%string.
End Registrations.

Module Generatedkeys.
Record row : Type := mkRow {
  id : Z;
  registration_id : option Z;
  serial : jsstring;
  created_at : Z
}.
Definition to_json (k : row) : Json :=
  JObj [("id", JNum (id k));
        ("registration_id",
         match registration_id k with Some r => JNum r | None => JNull end);
        ("serial", JStr (serial k));
        ("created_at", JNum (created_at k))]%string.
End Generatedkeys.

Record Tables : Type := mkTables {
  registrations : list Registrations.row;
  generatedkeys : list Generatedkeys.row
}.

(** [WHERE roblox_username = $1] *)
Definition has_username (u : jsstring) (r : Registrations.row) : bool :=
  str_eqb (Registrations.roblox_username r) u.

(** [WHERE registration_id = $1] *)
Definition linked_to (rid : Z) (k : Generatedkeys.row) : bool :=
  match Generatedkeys.registration_id k with
  | Some r => Z.eqb r rid
  | None => false
  end.

(** [WHERE serial = $1] *)
Definition has_serial (s : jsstring) (k : Generatedkeys.row) : bool :=
  str_eqb (Generatedkeys.serial k) s.

Definition has_id (rid : Z) (r : Registrations.row) : bool :=
  Z.eqb (Registrations.id r) rid.

(** Invariant I1: at most one key row references a registration id. *)
Definition I1 (t : Tables) : Prop :=
  forall rid : Z, List.length (filter (linked_to rid) (generatedkeys t)) <= 1.

(** Invariant I2: no two key rows hold the same serial. *)
Definition I2 (t : Tables) : Prop :=
  NoDup (map Generatedkeys.serial (generatedkeys t)).

(** Invariant I3: a key row that references a registration id references
    a row of [registrations]. *)
Definition I3 (t : Tables) : Prop :=
  forall (k : Generatedkeys.row) (rid : Z),
    In k (generatedkeys t) ->
    Generatedkeys.registration_id k = Some rid ->
    exists r, In r (registrations t) /\ Registrations.id r = rid.

(** ** The world a handler runs in *)

(** The statements that the handlers send to the storage. *)
Inductive Stmt : Type :=
| PoolConnect
| ClientRelease
| Begin
| Commit
| Rollback
| SelectNow
| InsertRegistration (roblox discord why : jsstring)
| SelectExistsSerial (s : jsstring)
| InsertSerial (s : jsstring)
| SelectRegistrationForUpdate (roblox : jsstring)
| SelectKeysByRegistration (rid : Z)
| InsertKey (rid : Z) (s : jsstring).

Record World : Type := mkWorld {
  (** the committed rows *)
  committed : Tables;
  (** the working copy of the transaction that the client has open *)
  txn : option Tables;
  (** the two SERIAL sequences; a rollback does not rewind them *)
  registrations_id_seq : Z;
  generatedkeys_id_seq : Z;
  (** CURRENT_TIMESTAMP *)
  clock : Z;
  (** the storage call number [n] fails with this message, if any *)
  fault_at : nat -> option jsstring;
  calls : nat;
  (** the successive values of
      [Math.random().toString(36).substring(2, 15)] *)
  random_at : nat -> jsstring;
  draws : nat;
  (** the statements sent so far, the latest first, each with whether it
      succeeded *)
  trace : list (Stmt * bool)
}.

Definition set_committed (t : Tables) (w : World) : World :=
  mkWorld t (txn w) (registrations_id_seq w) (generatedkeys_id_seq w)
    (clock w) (fault_at w) (calls w) (random_at w) (draws w) (trace w).

Definition set_txn (x : option Tables) (w : World) : World :=
  mkWorld (committed w) x (registrations_id_seq w) (generatedkeys_id_seq w)
    (clock w) (fault_at w) (calls w) (random_at w) (draws w) (trace w).

Definition set_registrations_id_seq (n : Z) (w : World) : World :=
  mkWorld (committed w) (txn w) n (generatedkeys_id_seq w)
    (clock w) (fault_at w) (calls w) (random_at w) (draws w) (trace w).

Definition set_generatedkeys_id_seq (n : Z) (w : World) : World :=
  mkWorld (committed w) (txn w) (registrations_id_seq w) n
    (clock w) (fault_at w) (calls w) (random_at w) (draws w) (trace w).

Definition set_calls (n : nat) (w : World) : World :=
  mkWorld (committed w) (txn w) (registrations_id_seq w) (generatedkeys_id_seq w)
    (clock w) (fault_at w) n (random_at w) (draws w) (trace w).

Definition set_draws (n : nat) (w : World) : World :=
  mkWorld (committed w) (txn w) (registrations_id_seq w) (generatedkeys_id_seq w)
    (clock w) (fault_at w) (calls w) (random_at w) n (trace w).

Definition log (s : Stmt) (ok : bool) (w : World) : World :=
  mkWorld (committed w) (txn w) (registrations_id_seq w) (generatedkeys_id_seq w)
    (clock w) (fault_at w) (calls w) (random_at w) (draws w)
    ((s, ok) :: trace w).

(** ** Computations that may throw *)

Record Error : Type := mkError { message : jsstring }.

Inductive Outcome (A : Type) : Type :=
| Ok (a : A)
| Throw (e : Error).
Arguments Ok {A} a.
Arguments Throw {A} e.

Definition M (A : Type) : Type := World -> Outcome A * World.

Definition ret {A} (a : A) : M A := fun w => (Ok a, w).

Definition throw {A} (e : Error) : M A := fun w => (Throw e, w).

Definition bind {A B} (m : M A) (f : A -> M B) : M B :=
  fun w =>
    match m w with
    | (Ok a, w') => f a w'
    | (Throw e, w') => (Throw e, w')
    end.

(** [try { m } catch (error) { h error }] *)
Definition try_catch {A} (m : M A) (h : Error -> M A) : M A :=
  fun w =>
    match m w with
    | (Ok a, w') => (Ok a, w')
    | (Throw e, w') => h e w'
    end.

(** [try { m } finally { f }] *)
Definition try_finally {A} (m : M A) (f : M unit) : M A :=
  fun w =>
    match m w with
    | (r, w') =>
        match f w' with
        | (Ok _, w'') => (r, w'')
        | (Throw e, w'') => (Throw e, w'')
        end
    end.

Declare Scope js_scope.
Delimit Scope js_scope with js.
Notation "x <- m ;; k" := (bind m (fun x => k))
  (at level 61, m at next level, right associativity) : js_scope.
Notation "m ;; k" := (bind m (fun _ => k))
  (at level 61, right associativity) : js_scope.
Open Scope js_scope.

(** ** Regular expressions

    The fragment of the regular expressions that the two validators use:
    a sequence of terms, each an assertion or a greedy bounded repetition
    of a character class, matched by backtracking as
    [RegExp.prototype.test] does for a pattern without flags. *)

Module RegExp.

Inductive Term : Type :=
| AssertStart
| AssertEnd
| ClassRep (ranges : list (N * N)) (min max : nat).

Definition Pattern : Type := list Term.

(** [c] is in the class: it is in one of the ranges [lo-hi]. *)
Definition class_mem (ranges : list (N * N)) (c : N) : bool :=
  existsb (fun r => N.leb (fst r) c && N.leb c (snd r)) ranges.

(** The greedy repetition [{min,max}] of a class, then the continuation
    [k]; the match first takes one more character and falls back to
    stopping here. *)
Fixpoint rep (ranges : list (N * N)) (k : bool -> jsstring -> bool)
    (min max : nat) (at_start : bool) (input : jsstring) : bool :=
  let stop := match min with O => k at_start input | S _ => false end in
  match max with
  | O => stop
  | S max' =>
      match input with
      | c :: rest =>
          if class_mem ranges c && rep ranges k (pred min) max' false rest
          then true
          else stop
      | [] => stop
      end
  end.

(** A match of the pattern that starts at the current index; [at_start]
    says whether that index is 0. *)
Fixpoint match_here (p : Pattern) (at_start : bool) (input : jsstring) : bool :=
  match p with
  | [] => true
  | AssertStart :: p' => at_start && match_here p' at_start input
  | AssertEnd :: p' =>
      match input with
      | [] => match_here p' at_start input
      | _ :: _ => false
      end
  | ClassRep ranges min max :: p' => rep ranges (match_here p') min max at_start input
  end.

(** The search for a match at index 0, then 1, and so on. *)
Fixpoint search (p : Pattern) (at_start : bool) (input : jsstring) : bool :=
  match_here p at_start input
  || match input with
     | [] => false
     | _ :: rest => search p false rest
     end.

Definition test (p : Pattern) (input : jsstring) : bool := search p true input.

Definition range (lo hi : ascii) : N * N := (code lo, code hi).

Definition single (c : ascii) : N * N := (code c, code c).

End RegExp.

(** [/^[a-zA-Z0-9_]{3,20}$/] *)
Definition robloxUsernameRegex : RegExp.Pattern :=
  [RegExp.AssertStart;
   RegExp.ClassRep
     [RegExp.range "a" "z"; RegExp.range "A" "Z"; RegExp.range "0" "9";
      RegExp.single "_"] 3 20;
   RegExp.AssertEnd].

(** [/^[a-zA-Z0-9_.]{2,32}$/] *)
Definition discordUsernameRegex : RegExp.Pattern :=
  [RegExp.AssertStart;
   RegExp.ClassRep
     [RegExp.range "a" "z"; RegExp.range "A" "Z"; RegExp.range "0" "9";
      RegExp.single "_"; RegExp.single "."] 2 32;
   RegExp.AssertEnd].

(** ** The validators *)

Definition validateRobloxUser (username : jsstring) : M bool :=
  try_catch
    (ret (RegExp.test robloxUsernameRegex username))
    (fun _ => ret false).

Definition validateDiscordUser (username : jsstring) : M bool :=
  try_catch
    (ret (RegExp.test discordUsernameRegex username))
    (fun _ => ret false).

(** ** The storage *)

(** A call to the storage: it fails with the scripted fault before it has
    any effect, or runs; either way it is traced. *)
Definition storage_call {A} (s : Stmt) (run : M A) : M A :=
  fun w =>
    let w1 := set_calls (S (calls w)) w in
    match fault_at w (calls w) with
    | Some msg => (Throw (mkError msg), log s false w1)
    | None =>
        match run w1 with
        | (Ok a, w2) => (Ok a, log s true w2)
        | (Throw e, w2) => (Throw e, log s false w2)
        end
    end.

Definition unique_violation : Error :=
  mkError (lit "duplicate key value violates unique constraint generatedkeys_serial_key").

Definition foreign_key_violation : Error :=
  mkError (lit "insert or update on table generatedkeys violates foreign key constraint generatedkeys_registration_id_fkey").

(** The rows that a statement of the client sees: those of its open
    transaction, or the committed ones. *)
Definition data (w : World) : Tables :=
  match txn w with
  | Some t => t
  | None => committed w
  end.

Definition put_data (t : Tables) (w : World) : World :=
  match txn w with
  | Some _ => set_txn (Some t) w
  | None => set_committed t w
  end.

(** [pool.connect()] *)
Definition pool_connect : M unit := storage_call PoolConnect (ret tt).

(** [client.release()] *)
Definition client_release : M unit := fun w => (Ok tt, log ClientRelease true w).

(** [client.query('BEGIN')] *)
Definition client_begin : M unit :=
  storage_call Begin (fun w => (Ok tt, set_txn (Some (committed w)) w)).

(** [client.query('COMMIT')] *)
Definition client_commit : M unit :=
  storage_call Commit
    (fun w =>
       match txn w with
       | Some t => (Ok tt, set_txn None (set_committed t w))
       | None => (Ok tt, w)
       end).

(** [client.query('ROLLBACK')] *)
Definition client_rollback : M unit :=
  storage_call Rollback (fun w => (Ok tt, set_txn None w)).

(** [pool.query('SELECT NOW()')], the [now] of its row *)
Definition select_now : M Z :=
  storage_call SelectNow (fun w => (Ok (clock w), w)).

(** [INSERT INTO registrations (roblox_username, discord_username, reason)
    VALUES ($1, $2, $3) RETURNING *], the row it returns *)
Definition insert_registration (roblox discord why : jsstring) : M Registrations.row :=
  storage_call (InsertRegistration roblox discord why)
    (fun w =>
       let r := Registrations.mkRow (registrations_id_seq w) roblox discord
                  (clock w) (Some why) in
       let t := committed w in
       (Ok r,
        set_committed (mkTables (registrations t ++ [r]) (generatedkeys t))
          (set_registrations_id_seq (registrations_id_seq w + 1) w))).

(** [SELECT EXISTS(SELECT 1 FROM generatedkeys WHERE serial = $1)], the
    [exists] of its row *)
Definition select_exists_serial (s : jsstring) : M bool :=
  storage_call (SelectExistsSerial s)
    (fun w => (Ok (existsb (has_serial s) (generatedkeys (committed w))), w)).

(** [INSERT INTO generatedkeys (serial) VALUES ($1) RETURNING *] *)
Definition insert_serial (s : jsstring) : M Generatedkeys.row :=
  storage_call (InsertSerial s)
    (fun w =>
       let k := Generatedkeys.mkRow (generatedkeys_id_seq w) None s (clock w) in
       let w1 := set_generatedkeys_id_seq (generatedkeys_id_seq w + 1) w in
       let t := committed w in
       if existsb (has_serial s) (generatedkeys t)
       then (Throw unique_violation, w1)
       else (Ok k, set_committed (mkTables (registrations t) (generatedkeys t ++ [k])) w1)).

(** [SELECT * FROM registrations WHERE roblox_username = $1 FOR UPDATE];
    with one request at a time the row locks never block. *)
Definition select_registration_for_update (roblox : jsstring)
    : M (list Registrations.row) :=
  storage_call (SelectRegistrationForUpdate roblox)
    (fun w => (Ok (filter (has_username roblox) (registrations (data w))), w)).

(** [SELECT * FROM generatedkeys WHERE registration_id = $1] *)
Definition select_keys_by_registration (rid : Z) : M (list Generatedkeys.row) :=
  storage_call (SelectKeysByRegistration rid)
    (fun w => (Ok (filter (linked_to rid) (generatedkeys (data w))), w)).

(** [INSERT INTO generatedkeys (registration_id, serial) VALUES ($1, $2)
    RETURNING *] *)
Definition insert_key (rid : Z) (s : jsstring) : M Generatedkeys.row :=
  storage_call (InsertKey rid s)
    (fun w =>
       let k := Generatedkeys.mkRow (generatedkeys_id_seq w) (Some rid) s (clock w) in
       let w1 := set_generatedkeys_id_seq (generatedkeys_id_seq w + 1) w in
       let t := data w in
       if existsb (has_serial s) (generatedkeys t)
       then (Throw unique_violation, w1)
       else if negb (existsb (has_id rid) (registrations t))
       then (Throw foreign_key_violation, w1)
       else (Ok k, put_data (mkTables (registrations t) (generatedkeys t ++ [k])) w1)).

(** [Math.random().toString(36).substring(2, 15)] *)
Definition random_segment : M jsstring :=
  fun w => (Ok (random_at w (draws w)), set_draws (S (draws w)) w).

(** ** The handlers *)

Definition internal_server_error : Response :=
  mkResponse 500 (JObj [("error", JStr (lit "Internal server error"))]%string).

Definition serial_key_is_required : Response :=
  mkResponse 400 (JObj [("error", JStr (lit "Serial key is required"))]%string).

(** [app.post('/api/validate-users')] *)
Definition validate_users (req : Body) : M Response :=
  try_catch
    (if negb (truthy (robloxUsername req)) || negb (truthy (discordUsername req))
        || negb (truthy (reason req))
     then
       ret (mkResponse 400
              (JObj [("error", JStr (lit "Missing required fields"));
                     ("details",
                      JObj [("roblox", JBool (negb (truthy (robloxUsername req))));
                            ("discord", JBool (negb (truthy (discordUsername req))));
                            ("reason", JBool (negb (truthy (reason req))))])]%string))
     else
       robloxValid <- validateRobloxUser (param (robloxUsername req)) ;;
       discordValid <- validateDiscordUser (param (discordUsername req)) ;;
       if negb robloxValid || negb discordValid
       then
         ret (mkResponse 400
                (JObj [("error", JStr (lit "Invalid usernames"));
                       ("details",
                        JObj [("roblox", JBool (negb robloxValid));
                              ("discord", JBool (negb discordValid))])]%string))
       else
         registration <- insert_registration (param (robloxUsername req))
                           (param (discordUsername req)) (param (reason req)) ;;
         ret (json
                (JObj [("success", JBool true);
                       ("data", Registrations.to_json registration);
                       ("validation",
                        JObj [("roblox", JBool true); ("discord", JBool true)])]%string)))
    (fun _ => ret internal_server_error).

(** [app.get('/health')] *)
Definition health : M Response :=
  try_catch
    (now <- select_now ;;
     ret (json
            (JObj [("status", JStr (lit "ok"));
                   ("database", JStr (lit "connected"));
                   ("timestamp", JNum now)]%string)))
    (fun error =>
       ret (mkResponse 500
              (JObj [("status", JStr (lit "error"));
                     ("database", JStr (lit "disconnected"));
                     ("error", JStr (message error))]%string))).

(** [app.post('/api/check-serial')] *)
Definition check_serial (req : Body) : M Response :=
  try_catch
    (if negb (truthy (serial req))
     then ret serial_key_is_required
     else
       found <- select_exists_serial (param (serial req)) ;;
       ret (json (JObj [("exists", JBool found)]%string)))
    (fun _ => ret internal_server_error).

(** [app.post('/api/save-serial')] *)
Definition save_serial (req : Body) : M Response :=
  try_catch
    (if negb (truthy (serial req))
     then ret serial_key_is_required
     else
       key <- insert_serial (param (serial req)) ;;
       ret (json (JObj [("success", JBool true);
                        ("data", Generatedkeys.to_json key)]%string)))
    (fun _ => ret internal_server_error).

(** [app.post('/api/validate-download')] *)
Definition validate_download (req : Body) : M Response :=
  try_catch
    (if negb (truthy (serial req))
     then ret serial_key_is_required
     else
       found <- select_exists_serial (param (serial req)) ;;
       ret (json (JObj [("valid", JBool found)]%string)))
    (fun _ => ret internal_server_error).

Definition roblox_username_is_required : Response :=
  mkResponse 400 (JObj [("error", JStr (lit "Roblox username is required"))]%string).

Definition registration_not_found : Response :=
  mkResponse 404 (JObj [("error", JStr (lit "Registration not found"))]%string).

Definition serial_key_already_generated (serialKey : jsstring) : Response :=
  mkResponse 400
    (JObj [("error", JStr (lit "Serial key already generated for this registration"));
           ("serialKey", JStr serialKey)]%string).

Definition serial_key_generated (serialKey : jsstring) : Response :=
  json (JObj [("success", JBool true); ("serialKey", JStr serialKey)]%string).

(** ['scriptxserial_' + a + b] *)
Definition serial_of_segments (a b : jsstring) : jsstring :=
  lit "scriptxserial_" ++ a ++ b.

(** The transaction of [/api/generate-serial]: the body of its inner
    [try]. *)
Definition issue_in_transaction (roblox : jsstring) : M Response :=
  client_begin ;;
  registrationResult <- select_registration_for_update roblox ;;
  match registrationResult with
  | [] =>
      client_rollback ;;
      ret registration_not_found
  | registration :: _ =>
      let registrationId := Registrations.id registration in
      existingKeyResult <- select_keys_by_registration registrationId ;;
      match existingKeyResult with
      | existing :: _ =>
          client_rollback ;;
          ret (serial_key_already_generated (Generatedkeys.serial existing))
      | [] =>
          a <- random_segment ;;
          b <- random_segment ;;
          let serialKey := serial_of_segments a b in
          key <- insert_key registrationId serialKey ;;
          client_commit ;;
          ret (serial_key_generated (Generatedkeys.serial key))
      end
  end.

(** [app.post('/api/generate-serial')] *)
Definition generate_serial (req : Body) : M Response :=
  try_catch
    (if negb (truthy (robloxUsername req))
     then ret roblox_username_is_required
     else
       pool_connect ;;
       try_finally
         (try_catch
            (issue_in_transaction (param (robloxUsername req)))
            (fun error => client_rollback ;; throw error))
         client_release)
    (fun _ => ret internal_server_error).

(** The serial that the next request to generate one draws in [w], and the
    row that its [INSERT] adds for [registration]. *)
Definition candidate (w : World) : jsstring :=
  serial_of_segments (random_at w (draws w)) (random_at w (S (draws w))).

Definition issued_key (w : World) (registration : Registrations.row)
    : Generatedkeys.row :=
  Generatedkeys.mkRow (generatedkeys_id_seq w) (Some (Registrations.id registration))
    (candidate w) (clock w).

(** The operations of the service. *)
Inductive Operation : Type :=
| ValidateUsers (req : Body)
| Health
| CheckSerial (req : Body)
| SaveSerial (req : Body)
| ValidateDownload (req : Body)
| GenerateSerial (req : Body).

Definition handle (op : Operation) : M Response :=
  match op with
  | ValidateUsers req => validate_users req
  | Health => health
  | CheckSerial req => check_serial req
  | SaveSerial req => save_serial req
  | ValidateDownload req => validate_download req
  | GenerateSerial req => generate_serial req
  end.

(** ** The patterns in the words of the specification *)

Definition in_range (lo hi : ascii) (c : N) : Prop :=
  (code lo <= c /\ c <= code hi)%N.

(** A character of the class [[A-Za-z0-9_]]. *)
Definition roblox_handle_char (c : N) : Prop :=
  in_range "A" "Z" c \/ in_range "a" "z" c \/ in_range "0" "9" c \/ c = code "_".

(** A character of the class [[A-Za-z0-9_.]]. *)
Definition discord_handle_char (c : N) : Prop :=
  in_range "A" "Z" c \/ in_range "a" "z" c \/ in_range "0" "9" c
  \/ c = code "_" \/ c = code ".".

(** [s] matches [^[A-Za-z0-9_]{3,20}$]: it is 3 to 20 characters of the
    class, and nothing else. *)
Definition matches_roblox_handle_pattern (s : jsstring) : Prop :=
  Forall roblox_handle_char s /\ 3 <= List.length s <= 20.

(** [s] matches [^[A-Za-z0-9_.]{2,32}$]. *)
Definition matches_discord_handle_pattern (s : jsstring) : Prop :=
  Forall discord_handle_char s /\ 2 <= List.length s <= 32.

(** ** Example worlds *)

Definition no_fault : nat -> option jsstring := fun _ => None.

(** Four values that [Math.random().toString(36).substring(2, 15)] may take. *)
Definition segments (n : nat) : jsstring :=
  match n with
  | 0 => lit "k3j9x0a7q1b"
  | 1 => lit "z81hd02nm4p"
  | 2 => lit "m2c8v5t1y6r"
  | _ => lit "q7w4e9r2t5u"
  end.

Definition player_1 : Registrations.row :=
  Registrations.mkRow 1 (lit "Player_1") (lit "user.name") 1000 (Some (lit "testing")).


Definition unlinked_key : Generatedkeys.row :=
  Generatedkeys.mkRow 1 None (lit "scriptxserial_k3j9x0a7q1bz81hd02nm4p") 1001.

Definition world_of (t : Tables) (faults : nat -> option jsstring) : World :=
  mkWorld t None 2 2 1002 faults 0 segments 0 [].

(** [Player_1] is registered and has no key. *)
Definition world_registered : World :=
  world_of (mkTables [player_1] []) no_fault.


(** [Player_1] is registered and has no key, and the serial that the random
    source yields next was saved before through [/api/save-serial]. *)
Definition world_collision : World :=
  world_of (mkTables [player_1] [unlinked_key]) no_fault.

(** The storage fails at its call number [k] with [msg]. *)
Definition fault_on (k : nat) (msg : jsstring) : nat -> option jsstring :=
  fun n => if Nat.eqb n k then Some msg else None.

Definition issue_player_1 : Body := mkBody (Some (lit "Player_1")) None None None.

Definition issue_nobody : Body := mkBody (Some (lit "Nobody")) None None None.


(** The [INSERT]s of a linked key in a trace. *)
Definition insert_attempts (tr : list (Stmt * bool)) : list (Stmt * bool) :=
  filter (fun e => match fst e with InsertKey _ _ => true | _ => false end) tr.

(** Two worlds that differ at most in the messages of the scripted faults. *)
Definition same_up_to_fault_messages (w1 w2 : World) : Prop :=
  committed w1 = committed w2
  /\ txn w1 = txn w2
  /\ registrations_id_seq w1 = registrations_id_seq w2
  /\ generatedkeys_id_seq w1 = generatedkeys_id_seq w2
  /\ clock w1 = clock w2
  /\ calls w1 = calls w2
  /\ random_at w1 = random_at w2
  /\ draws w1 = draws w2
  /\ trace w1 = trace w2
  /\ forall n : nat, fault_at w1 n = None <-> fault_at w2 n = None.

(** The storage fails when the key of [Player_1] is inserted: the calls
    are numbered from 0 (connect, BEGIN, two SELECTs, then the INSERT). *)
Definition world_insert_fails : World :=
  world_of (mkTables [player_1] [])
    (fault_on 4 (lit "Connection terminated unexpectedly")).

(** The storage is unreachable, and says so with [msg]. *)
Definition world_down (msg : jsstring) : World :=
  world_of (mkTables [player_1] []) (fun _ => Some msg).

(** ** Concurrent requests for a serial

    Several [/api/generate-serial] requests in flight at once. Each request
    runs the code of the handler from one [await] to the next; the storage
    executes the statements one at a time, in any order across requests.
    A request's own statements keep their order. The storage is healthy:
    no statement fails but on a constraint.

    [SELECT ... FOR UPDATE] takes the row locks of the rows it returns and
    holds them until the transaction ends; while another transaction holds
    one of them, the statement waits. A row that a transaction has inserted
    is pending, seen by that transaction only, until it commits; an
    [INSERT] of a serial that is pending in another transaction waits for
    that transaction to end. *)

Module Concurrent.

(** Where a request stands: the statement that it has sent and awaits. *)
Inductive Pc : Type :=
| Start
| AwaitBegin
| AwaitRegistration
| AwaitRollback (answer : Response)
| AwaitKeys (registrationId : Z)
| AwaitInsert (registrationId : Z) (serialKey : jsstring)
| AwaitCommit (key : Generatedkeys.row)
| AwaitCatchRollback
| Done (answer : Response).

Record State : Type := mkState {
  (** the committed rows *)
  tables : Tables;
  (** the rows inserted by transactions that are still open, with the
      request that owns each *)
  pending : list (nat * Generatedkeys.row);
  (** the row locks on [registrations]: row id and owner *)
  locks : list (Z * nat);
  pc : nat -> Pc;
  key_seq : Z;
  now : Z;
  rand : nat -> jsstring;
  drawn : nat;
  (** the statements executed so far, the latest first, each with the
      request that sent it *)
  sent : list (nat * Stmt);
  request : nat -> Body;
  (** the requests are numbered from 0 to [launched - 1] *)
  launched : nat
}.

Definition goto (i : nat) (p : Pc) (s : State) : State :=
  mkState (tables s) (pending s) (locks s)
    (fun j => if Nat.eqb j i then p else pc s j)
    (key_seq s) (now s) (rand s) (drawn s) (sent s) (request s) (launched s).

Definition send (i : nat) (q : Stmt) (s : State) : State :=
  mkState (tables s) (pending s) (locks s) (pc s)
    (key_seq s) (now s) (rand s) (drawn s) ((i, q) :: sent s) (request s) (launched s).

Definition own (i : nat) (rows : list (nat * Generatedkeys.row)) : list Generatedkeys.row :=
  map snd (filter (fun r => Nat.eqb (fst r) i) rows).

Definition of_others (i : nat) (rows : list (nat * Generatedkeys.row))
    : list (nat * Generatedkeys.row) :=
  filter (fun r => negb (Nat.eqb (fst r) i)) rows.

(** Some row of [ids] is locked by another request than [i]. *)
Definition locked_by_other (i : nat) (ids : list Z) (held : list (Z * nat)) : bool :=
  existsb (fun l => negb (Nat.eqb (snd l) i) && existsb (Z.eqb (fst l)) ids) held.

Definition lock (i : nat) (ids : list Z) (s : State) : State :=
  mkState (tables s) (pending s) (locks s ++ map (fun id => (id, i)) ids) (pc s)
    (key_seq s) (now s) (rand s) (drawn s) (sent s) (request s) (launched s).

(** The end of the transaction of [i]: its pending rows are committed or
    dropped, and its locks released. *)
Definition end_transaction (i : nat) (commit : bool) (s : State) : State :=
  mkState
    (if commit
     then mkTables (registrations (tables s))
            (generatedkeys (tables s) ++ own i (pending s))
     else tables s)
    (of_others i (pending s))
    (filter (fun l => negb (Nat.eqb (snd l) i)) (locks s))
    (pc s) (key_seq s) (now s) (rand s) (drawn s) (sent s) (request s) (launched s).

Definition insert_pending (i : nat) (key : Generatedkeys.row) (s : State) : State :=
  mkState (tables s) (pending s ++ [(i, key)]) (locks s) (pc s)
    (key_seq s) (now s) (rand s) (drawn s) (sent s) (request s) (launched s).

Definition next_key (s : State) : State :=
  mkState (tables s) (pending s) (locks s) (pc s)
    (key_seq s + 1) (now s) (rand s) (drawn s) (sent s) (request s) (launched s).

Definition draw_two (s : State) : State :=
  mkState (tables s) (pending s) (locks s) (pc s)
    (key_seq s) (now s) (rand s) (S (S (drawn s))) (sent s) (request s) (launched s).

(** The storage executes the statement that request [i] awaits, and the
    handler runs on to its next [await] or to its answer. A statement that
    has to wait leaves the state as it is. *)
Definition step (i : nat) (s : State) : State :=
  if negb (Nat.ltb i (launched s)) then s
  else
    match pc s i with
    | Start =>
        if negb (truthy (robloxUsername (request s i)))
        then goto i (Done roblox_username_is_required) s
        else goto i AwaitBegin (send i PoolConnect s)
    | AwaitBegin => goto i AwaitRegistration (send i Begin s)
    | AwaitRegistration =>
        let roblox := param (robloxUsername (request s i)) in
        let rows := filter (has_username roblox) (registrations (tables s)) in
        if locked_by_other i (map Registrations.id rows) (locks s)
        then s
        else
          let s1 :=
            send i (SelectRegistrationForUpdate roblox)
              (lock i (map Registrations.id rows) s) in
          match rows with
          | [] => goto i (AwaitRollback registration_not_found) s1
          | registration :: _ => goto i (AwaitKeys (Registrations.id registration)) s1
          end
    | AwaitKeys registrationId =>
        let s1 := send i (SelectKeysByRegistration registrationId) s in
        match filter (linked_to registrationId)
                (generatedkeys (tables s) ++ own i (pending s)) with
        | existing :: _ =>
            goto i
              (AwaitRollback (serial_key_already_generated (Generatedkeys.serial existing)))
              s1
        | [] =>
            let serialKey :=
              serial_of_segments (rand s (drawn s)) (rand s (S (drawn s))) in
            goto i (AwaitInsert registrationId serialKey) (draw_two s1)
        end
    | AwaitInsert registrationId serialKey =>
        if existsb (has_serial serialKey) (map snd (of_others i (pending s)))
        then s
        else
          let s1 := send i (InsertKey registrationId serialKey) (next_key s) in
          if existsb (has_serial serialKey)
               (generatedkeys (tables s) ++ own i (pending s))
          then goto i AwaitCatchRollback s1
          else if negb (existsb (has_id registrationId) (registrations (tables s)))
          then goto i AwaitCatchRollback s1
          else
            let key :=
              Generatedkeys.mkRow (key_seq s) (Some registrationId) serialKey (now s) in
            goto i (AwaitCommit key) (insert_pending i key s1)
    | AwaitCommit key =>
        goto i (Done (serial_key_generated (Generatedkeys.serial key)))
          (send i Commit (end_transaction i true s))
    | AwaitRollback answer =>
        goto i (Done answer) (send i Rollback (end_transaction i false s))
    | AwaitCatchRollback =>
        goto i (Done internal_server_error) (send i Rollback (end_transaction i false s))
    | Done _ => s
    end.

(** A schedule names, statement by statement, the request whose statement
    the storage executes next. *)
Definition run (schedule : list nat) (s : State) : State :=
  fold_left (fun s i => step i s) schedule s.

(** [n] requests arrive in the world [w]. *)
Definition launch (n : nat) (requests : nat -> Body) (w : World) : State :=
  mkState (committed w) [] [] (fun _ => Start) (generatedkeys_id_seq w) (clock w)
    (random_at w) (draws w) [] requests n.

Definition is_done (p : Pc) : bool :=
  match p with
  | Done _ => true
  | _ => false
  end.

Definition all_done (s : State) : bool :=
  forallb (fun i => is_done (pc s i)) (seq 0 (launched s)).

(** The [INSERT]s of a linked key among the statements executed. *)
Definition inserts (l : list (nat * Stmt)) : list (nat * Stmt) :=
  filter (fun e => match snd e with InsertKey _ _ => true | _ => false end) l.

(** Each request runs alone, one after the other. *)
Definition one_by_one (n : nat) : list nat :=
  flat_map (fun i => repeat i 6) (seq 0 n).

(** How many statements a request that runs undisturbed still has to await,
    at most. *)
Definition remaining (p : Pc) : nat :=
  match p with
  | Start => 6
  | AwaitBegin => 5
  | AwaitRegistration => 4
  | AwaitKeys _ => 3
  | AwaitInsert _ _ => 2
  | AwaitCommit _ | AwaitRollback _ | AwaitCatchRollback => 1
  | Done _ => 0
  end.

(** *** The invariant of concurrent requests for one registration *)

(** A request between its [SELECT ... FOR UPDATE] and the end of its
    transaction. *)
Definition critical (p : Pc) : bool :=
  match p with
  | AwaitRollback _ | AwaitKeys _ | AwaitInsert _ _ | AwaitCommit _
  | AwaitCatchRollback => true
  | Start | AwaitBegin | AwaitRegistration | Done _ => false
  end.

Definition idle (p : Pc) : Prop :=
  p = Start \/ p = AwaitBegin \/ p = AwaitRegistration.

(** How far the issuance has come: no request has found the registration
    without a key yet; the request [winner] has, and has drawn the serial;
    it has inserted the key; it has committed. *)
Inductive Phase : Type :=
| NoKey
| Drawn (winner : nat)
| Inserted (winner : nat)
| Committed (winner : nat).

Definition set_pc (i : nat) (p : Pc) (pcs : nat -> Pc) : nat -> Pc :=
  fun j => if Nat.eqb j i then p else pcs j.

(** Only the requests in their critical section hold row locks, each on all
    the rows [ids] of the username, and there is at most one of them. *)
Definition lock_inv (n : nat) (ids : list Z) (pcs : nat -> Pc)
    (held : list (Z * nat)) : Prop :=
  (forall id j, In (id, j) held <-> (j < n /\ critical (pcs j) = true /\ In id ids))
  /\ (forall i j, i < n -> j < n ->
                  critical (pcs i) = true -> critical (pcs j) = true -> i = j).

Section Invariant.

Variable n : nat.
Variable req : Body.
Variable w : World.
Variable registration : Registrations.row.
Variable others : list Registrations.row.

(** Where request [j] may stand in a phase. *)
Definition allowed (ph : Phase) (j : nat) (p : Pc) : Prop :=
  let rid := Registrations.id registration in
  let again := serial_key_already_generated (candidate w) in
  match ph with
  | NoKey => idle p \/ p = AwaitKeys rid
  | Drawn winner =>
      if Nat.eqb j winner then p = AwaitInsert rid (candidate w) else idle p
  | Inserted winner =>
      if Nat.eqb j winner then p = AwaitCommit (issued_key w registration) else idle p
  | Committed winner =>
      if Nat.eqb j winner then p = Done (serial_key_generated (candidate w))
      else idle p \/ p = AwaitKeys rid \/ p = AwaitRollback again \/ p = Done again
  end.

Definition winner_of (ph : Phase) : option nat :=
  match ph with
  | NoKey => None
  | Drawn i | Inserted i | Committed i => Some i
  end.

Record Inv (ph : Phase) (s : State) : Prop := mkInv {
  inv_request : forall j, request s j = req;
  inv_launched : launched s = n;
  inv_rand : forall k, rand s k = random_at w k;
  inv_now : now s = clock w;
  inv_registrations : registrations (tables s) = registrations (committed w);
  inv_keys :
    generatedkeys (tables s)
    = match ph with
      | Committed _ => generatedkeys (committed w) ++ [issued_key w registration]
      | _ => generatedkeys (committed w)
      end;
  inv_pending :
    pending s
    = match ph with
      | Inserted i => [(i, issued_key w registration)]
      | _ => []
      end;
  inv_drawn :
    drawn s = match ph with NoKey => draws w | _ => S (S (draws w)) end;
  inv_key_seq :
    key_seq s
    = match ph with
      | NoKey | Drawn _ => generatedkeys_id_seq w
      | _ => (generatedkeys_id_seq w + 1)%Z
      end;
  inv_inserts :
    inserts (sent s)
    = match ph with
      | NoKey | Drawn _ => []
      | Inserted i | Committed i =>
          [(i, InsertKey (Registrations.id registration) (candidate w))]
      end;
  inv_winner : forall i, winner_of ph = Some i -> i < n;
  inv_pc : forall j, j < n -> allowed ph j (pc s j);
  inv_locks :
    lock_inv n (map Registrations.id (registration :: others)) (pc s) (locks s)
}.

(** The requests up to [k] are answered and the others have not begun. *)
Definition answered_up_to (k : nat) (s : State) : Prop :=
  (exists ph, Inv ph s)
  /\ (forall j, j < k -> is_done (pc s j) = true)
  /\ (forall j, k <= j -> pc s j = Start).

End Invariant.

End Concurrent.

(** Three concurrent requests, their statements taken in turn; a request
    that waits for the row locks is passed over. *)
Definition in_turn : list nat :=
  [0; 1; 2; 0; 1; 2; 0; 1; 2; 0; 1; 2; 0; 1; 2; 0; 1; 2;
   1; 2; 1; 2; 1; 2; 1; 2; 2; 2; 2; 2].

(** * Properties *)

(** ** Strings *)

Lemma str_eqb_eq (a b : jsstring) : str_eqb a b = true <-> a = b.
Proof.
  revert b; induction a as [|x a IH]; intros [|y b]; simpl;
    try (split; congruence).
  rewrite andb_true_iff, N.eqb_eq, IH. split.
  - intros [-> ->]; reflexivity.
  - intros H; injection H; auto.
Qed.

Lemma str_eqb_refl (a : jsstring) : str_eqb a a = true.
Proof. apply str_eqb_eq; reflexivity. Qed.

(** ** Regular expressions *)

Lemma class_mem_iff (ranges : list (N * N)) (c : N) :
  RegExp.class_mem ranges c = true <->
  exists r, In r ranges /\ (fst r <= c /\ c <= snd r)%N.
Proof.
  unfold RegExp.class_mem. rewrite existsb_exists.
  split; intros [r [Hin H]]; exists r; split; auto.
  - apply andb_true_iff in H. destruct H as [H1 H2].
    apply N.leb_le in H1, H2. auto.
  - apply andb_true_iff. split; apply N.leb_le; tauto.
Qed.

(** A bounded repetition that must reach the end of the input matches
    exactly the inputs of an allowed length whose characters are all in
    the class. *)
Lemma rep_to_end (ranges : list (N * N)) :
  forall (max min : nat) (b : bool) (s : jsstring),
    RegExp.rep ranges (RegExp.match_here [RegExp.AssertEnd]) min max b s = true <->
    (min <= List.length s <= max /\ forallb (RegExp.class_mem ranges) s = true).
Proof.
  induction max as [|max IH]; intros min b s.
  - destruct min, s; simpl; split; try congruence; try (intros [? ?]; lia);
      intros; try (split; [lia|reflexivity]).
  - destruct s as [|c rest].
    + destruct min; simpl; split; try congruence; try (intros [? ?]; lia);
        intros; split; [lia|reflexivity].
    + cbn [RegExp.rep].
      assert (Hstop : match min with
                      | O => RegExp.match_here [RegExp.AssertEnd] b (c :: rest)
                      | S _ => false
                      end = false) by (destruct min; reflexivity).
      rewrite Hstop. cbn [forallb List.length].
      destruct (RegExp.class_mem ranges c) eqn:Hc; cbn [andb].
      * destruct (RegExp.rep ranges (RegExp.match_here [RegExp.AssertEnd])
                    (pred min) max false rest) eqn:Hr.
        -- apply IH in Hr. split; auto. intros _. split; [lia|tauto].
        -- split; [congruence|]. intros [Hlen Hall].
           assert (RegExp.rep ranges (RegExp.match_here [RegExp.AssertEnd])
                     (pred min) max false rest = true) as E
               by (apply IH; split; [lia|assumption]).
           congruence.
      * split; [congruence|]. intros [_ H]. discriminate H.
Qed.

Lemma search_after_start (p : RegExp.Pattern) (s : jsstring) :
  RegExp.search (RegExp.AssertStart :: p) false s = false.
Proof. induction s as [|c s IH]; simpl; auto. Qed.

(** [^[class]{min,max}$] accepts the strings of [min] to [max] characters
    of the class. *)
Lemma test_anchored_class (ranges : list (N * N)) (min max : nat) (s : jsstring) :
  RegExp.test [RegExp.AssertStart; RegExp.ClassRep ranges min max; RegExp.AssertEnd] s
  = true <->
  (min <= List.length s <= max /\ forallb (RegExp.class_mem ranges) s = true).
Proof.
  unfold RegExp.test.
  assert (E : RegExp.search
                [RegExp.AssertStart; RegExp.ClassRep ranges min max; RegExp.AssertEnd]
                true s
              = RegExp.rep ranges (RegExp.match_here [RegExp.AssertEnd]) min max true s).
  { destruct s as [|c s]; cbn [RegExp.search RegExp.match_here andb].
    - apply orb_false_r.
    - rewrite search_after_start. apply orb_false_r. }
  rewrite E. apply rep_to_end.
Qed.

Lemma roblox_class_iff (c : N) :
  RegExp.class_mem
    [RegExp.range "a" "z"; RegExp.range "A" "Z"; RegExp.range "0" "9";
     RegExp.single "_"] c = true <-> roblox_handle_char c.
Proof.
  rewrite class_mem_iff. unfold roblox_handle_char, in_range, RegExp.range,
    RegExp.single. split.
  - intros [r [Hin H]]. simpl in Hin.
    destruct Hin as [<-|[<-|[<-|[<-|[]]]]]; cbn [fst snd] in H; auto.
    right; right; right. apply N.le_antisymm; tauto.
  - intros [H|[H|[H|H]]].
    + exists (code "A", code "Z"). simpl; auto.
    + exists (code "a", code "z"). simpl; auto.
    + exists (code "0", code "9"). simpl; auto.
    + exists (code "_", code "_"). subst c. simpl. split; auto.
      split; apply N.le_refl.
Qed.

Lemma discord_class_iff (c : N) :
  RegExp.class_mem
    [RegExp.range "a" "z"; RegExp.range "A" "Z"; RegExp.range "0" "9";
     RegExp.single "_"; RegExp.single "."] c = true <-> discord_handle_char c.
Proof.
  rewrite class_mem_iff. unfold discord_handle_char, in_range, RegExp.range,
    RegExp.single. split.
  - intros [r [Hin H]]. simpl in Hin.
    destruct Hin as [<-|[<-|[<-|[<-|[<-|[]]]]]]; cbn [fst snd] in H; auto.
    + right; right; right; left. apply N.le_antisymm; tauto.
    + right; right; right; right. apply N.le_antisymm; tauto.
  - intros [H|[H|[H|[H|H]]]].
    + exists (code "A", code "Z"). simpl; auto.
    + exists (code "a", code "z"). simpl; auto.
    + exists (code "0", code "9"). simpl; auto.
    + exists (code "_", code "_"). subst c. simpl. split; auto 6.
      split; apply N.le_refl.
    + exists (code ".", code "."). subst c. simpl. split; auto 6.
      split; apply N.le_refl.
Qed.

Lemma forallb_class (P : N -> Prop) (f : N -> bool) (s : jsstring) :
  (forall c, f c = true <-> P c) ->
  forallb f s = true <-> Forall P s.
Proof.
  intros H. rewrite forallb_forall, Forall_forall.
  split; intros K c Hc; apply H, K, Hc.
Qed.

Lemma roblox_regex_iff (s : jsstring) :
  RegExp.test robloxUsernameRegex s = true <-> matches_roblox_handle_pattern s.
Proof.
  unfold robloxUsernameRegex, matches_roblox_handle_pattern.
  rewrite test_anchored_class, (forallb_class roblox_handle_char) by apply roblox_class_iff.
  tauto.
Qed.

Lemma discord_regex_iff (s : jsstring) :
  RegExp.test discordUsernameRegex s = true <-> matches_discord_handle_pattern s.
Proof.
  unfold discordUsernameRegex, matches_discord_handle_pattern.
  rewrite test_anchored_class, (forallb_class discord_handle_char) by apply discord_class_iff.
  tauto.
Qed.

(** The regular expressions on a few strings. *)
Example roblox_regex_examples :
  RegExp.test robloxUsernameRegex (lit "Player_1") = true
  /\ RegExp.test robloxUsernameRegex (lit "ab") = false
  /\ RegExp.test robloxUsernameRegex (lit "user.name") = false
  /\ RegExp.test robloxUsernameRegex (lit "a_very_long_user_name") = false
  /\ RegExp.test robloxUsernameRegex (lit "abc" ++ [10%N]) = false.
Proof. repeat split; vm_compute; reflexivity. Qed.

Example discord_regex_examples :
  RegExp.test discordUsernameRegex (lit "user.name") = true
  /\ RegExp.test discordUsernameRegex (lit "u") = false
  /\ RegExp.test discordUsernameRegex (lit "user name") = false.
Proof. repeat split; vm_compute; reflexivity. Qed.

(** C6. For every string, [validateRobloxUser] answers true exactly when the
    string matches [^[A-Za-z0-9_]{3,20}$] and [validateDiscordUser] exactly
    when it matches [^[A-Za-z0-9_.]{2,32}$]; neither throws nor changes the
    world, and running them in either order gives the same two answers. *)
Theorem validators_decide_the_handle_patterns :
  forall (s : jsstring) (w : World),
    (exists b, validateRobloxUser s w = (Ok b, w)
               /\ (b = true <-> matches_roblox_handle_pattern s))
    /\ (exists b, validateDiscordUser s w = (Ok b, w)
                  /\ (b = true <-> matches_discord_handle_pattern s))
    /\ (forall r d : jsstring,
          (a <- validateRobloxUser r ;; b <- validateDiscordUser d ;; ret (a, b)) w
          = (b <- validateDiscordUser d ;; a <- validateRobloxUser r ;; ret (a, b)) w).
Proof.
  intros s w. split; [|split].
  - exists (RegExp.test robloxUsernameRegex s). split; [reflexivity|].
    apply roblox_regex_iff.
  - exists (RegExp.test discordUsernameRegex s). split; [reflexivity|].
    apply discord_regex_iff.
  - intros r d. reflexivity.
Qed.

(** ** Running the handlers *)

Arguments lit : simpl never.

Ltac unfold_handlers :=
  unfold handle, generate_serial, issue_in_transaction, validate_users, health,
    check_serial, save_serial, validate_download,
    validateRobloxUser, validateDiscordUser,
    pool_connect, client_release, client_begin, client_commit, client_rollback,
    select_now, insert_registration, select_exists_serial, insert_serial,
    select_registration_for_update, select_keys_by_registration, insert_key,
    random_segment, storage_call, try_catch, try_finally, bind, ret, throw.

(** Reduction of a run whose world is given field by field, so that every
    world met on the way is again a record of fields. *)
Ltac flat :=
  cbn;
  unfold set_calls, set_draws, set_txn, set_committed, set_generatedkeys_id_seq,
    set_registrations_id_seq, log, data, put_data;
  cbn.

(** One case split of a symbolic run: on the next scripted fault, on the
    rows that a query returns, or on a test of the handler. *)
Ltac branch :=
  match goal with
  | |- context [match ?f ?n with Some _ => _ | None => _ end] =>
      destruct (f n) eqn:?
  | |- context [match filter ?f ?l with _ => _ end] =>
      destruct (filter f l) eqn:?
  | |- context [if existsb ?f ?l then _ else _] =>
      destruct (existsb f l) eqn:?
  | |- context [if negb ?b then _ else _] =>
      destruct b eqn:?
  | |- context [if ?b then _ else _] =>
      destruct b eqn:?
  end; flat.

(** The run of a handler while no scripted fault is met. *)
Ltac run_healthy Hf :=
  flat;
  repeat (match goal with
          | |- context [match ?f ?n with Some _ => _ | None => _ end] =>
              rewrite (Hf n)
          end; flat).


Lemma filter_head_in {A} (f : A -> bool) (l : list A) (x : A) (rest : list A) :
  filter f l = x :: rest -> In x l /\ f x = true.
Proof.
  intros H. apply filter_In. rewrite H. left; reflexivity.
Qed.

Lemma found_registration_exists (u : jsstring) (t : Tables)
    (registration : Registrations.row) (others : list Registrations.row) :
  filter (has_username u) (registrations t) = registration :: others ->
  existsb (has_id (Registrations.id registration)) (registrations t) = true.
Proof.
  intros H. apply filter_head_in in H. destruct H as [Hin _].
  apply existsb_exists. exists registration. split; auto.
  unfold has_id. apply Z.eqb_refl.
Qed.

(** ** Invariant I1 *)

Lemma I1_insert_unlinked (t : Tables) (regs : list Registrations.row)
    (i c : Z) (s : jsstring) :
  I1 t ->
  I1 (mkTables regs (generatedkeys t ++ [Generatedkeys.mkRow i None s c])).
Proof.
  intros H rid. cbn [generatedkeys]. rewrite filter_app, length_app. simpl.
  specialize (H rid). lia.
Qed.

Lemma I1_insert_linked (t : Tables) (regs : list Registrations.row)
    (i c rid : Z) (s : jsstring) :
  I1 t ->
  filter (linked_to rid) (generatedkeys t) = [] ->
  I1 (mkTables regs (generatedkeys t ++ [Generatedkeys.mkRow i (Some rid) s c])).
Proof.
  intros H Hnone rid'. cbn [generatedkeys]. rewrite filter_app, length_app.
  cbn [filter linked_to Generatedkeys.registration_id].
  destruct (Z.eqb_spec rid rid') as [<-|Hne].
  - rewrite Hnone. simpl. lia.
  - specialize (H rid'). simpl. lia.
Qed.

Lemma filter_linked_insert (rid : Z) (keys : list Generatedkeys.row)
    (k : Generatedkeys.row) :
  filter (linked_to rid) (keys ++ [k])
  = filter (linked_to rid) keys ++ (if linked_to rid k then [k] else []).
Proof. rewrite filter_app. reflexivity. Qed.

(** ** Issuing a serial while the storage is healthy *)




(** C3, as the code has it. When the serial that was generated is already
    stored, the [INSERT] fails on the unique constraint and the handler does
    not try another serial: it rolls back and answers with the generic
    internal error after this one attempt, and the committed rows are
    unchanged. *)
Theorem duplicate_serial_fails_without_retry :
  forall (req : Body) (w : World)
         (registration : Registrations.row) (others : list Registrations.row),
    truthy (robloxUsername req) = true ->
    (forall n, fault_at w n = None) ->
    filter (has_username (param (robloxUsername req))) (registrations (committed w))
      = registration :: others ->
    filter (linked_to (Registrations.id registration)) (generatedkeys (committed w)) = [] ->
    existsb (has_serial (candidate w)) (generatedkeys (committed w)) = true ->
    exists w' : World,
      generate_serial req w = (Ok internal_server_error, w')
      /\ committed w' = committed w
      /\ txn w' = None
      /\ draws w' = S (S (draws w))
      /\ trace w' =
           [(ClientRelease, true); (Rollback, true);
            (InsertKey (Registrations.id registration) (candidate w), false);
            (SelectKeysByRegistration (Registrations.id registration), true);
            (SelectRegistrationForUpdate (param (robloxUsername req)), true);
            (Begin, true); (PoolConnect, true)] ++ trace w.
Proof.
  intros req [c t rs ks cl f n r d tr] registration others. unfold candidate.
  cbn [committed fault_at draws trace random_at].
  intros Ht Hf Hreg Hkey Hdup.
  unfold_handlers. rewrite Ht. run_healthy Hf. rewrite Hreg. run_healthy Hf.
  rewrite Hkey. run_healthy Hf. rewrite Hdup. run_healthy Hf.
  eexists. repeat split.
Qed.




Lemma duplicate_serial_fails_without_retry_witness :
  exists w' : World,
    generate_serial issue_player_1 world_collision = (Ok internal_server_error, w')
    /\ committed w' = committed world_collision
    /\ txn w' = None
    /\ draws w' = 2
    /\ trace w' =
         [(ClientRelease, true); (Rollback, true);
          (InsertKey 1 (serial_of_segments (segments 0) (segments 1)), false);
          (SelectKeysByRegistration 1, true);
          (SelectRegistrationForUpdate (lit "Player_1"), true);
          (Begin, true); (PoolConnect, true)].
Proof.
  apply (duplicate_serial_fails_without_retry issue_player_1 world_collision
           (registration := player_1) (others := [])
           eq_refl (fun _ => eq_refl) eq_refl eq_refl eq_refl).
Defined.

(** C3 as stated fails: the serial drawn for [Player_1] is already stored,
    the next draw would give a serial that is not, and still the handler
    sends one [INSERT] only, draws no further random value and answers
    with the internal error, leaving [Player_1] without a key. *)
Lemma duplicate_serial_is_not_retried :
  fst (generate_serial issue_player_1 world_collision) = Ok internal_server_error
  /\ insert_attempts (trace (snd (generate_serial issue_player_1 world_collision)))
     = [(InsertKey 1 (lit "scriptxserial_k3j9x0a7q1bz81hd02nm4p"), false)]
  /\ draws (snd (generate_serial issue_player_1 world_collision)) = 2
  /\ existsb (has_serial (serial_of_segments (segments 2) (segments 3)))
       (generatedkeys (committed world_collision)) = false
  /\ filter (linked_to 1)
       (generatedkeys (committed (snd (generate_serial issue_player_1 world_collision))))
     = [].
Proof. repeat split; vm_compute; reflexivity. Qed.


(** The scenario of the specification: [Player_1] registers, then asks for
    a serial twice. *)
Example register_then_issue_twice :
  let register :=
    mkBody (Some (lit "Player_1")) (Some (lit "user.name")) (Some (lit "testing")) None in
  let w0 := world_of (mkTables [] []) no_fault in
  let w1 := snd (validate_users register w0) in
  let w2 := snd (generate_serial issue_player_1 w1) in
  fst (validate_users register w0)
  = Ok (json (JObj [("success"%string, JBool true);
                    ("data"%string,
                     Registrations.to_json
                       (Registrations.mkRow 2 (lit "Player_1") (lit "user.name") 1002
                          (Some (lit "testing"))));
                    ("validation"%string,
                     JObj [("roblox"%string, JBool true);
                           ("discord"%string, JBool true)])]))
  /\ fst (generate_serial issue_player_1 w1)
     = Ok (serial_key_generated (lit "scriptxserial_k3j9x0a7q1bz81hd02nm4p"))
  /\ fst (generate_serial issue_player_1 w2)
     = Ok (serial_key_already_generated (lit "scriptxserial_k3j9x0a7q1bz81hd02nm4p"))
  /\ List.length (generatedkeys (committed (snd (generate_serial issue_player_1 w2)))) = 1.
Proof. repeat split; vm_compute; reflexivity. Qed.

(** ** Failures of the storage *)



(** ** The invariant I1 and the operations *)

(** C5. Every operation of the service preserves I1. For each registration
    id, the rows that reference it stay as they are, unless the operation
    is [/api/generate-serial], no row referenced the id before and exactly
    one does after. *)
Theorem every_operation_preserves_I1 :
  forall (op : Operation) (w : World),
    I1 (committed w) ->
    I1 (committed (snd (handle op w)))
    /\ forall rid : Z,
         filter (linked_to rid) (generatedkeys (committed (snd (handle op w))))
         = filter (linked_to rid) (generatedkeys (committed w))
         \/ exists (req : Body) (key : Generatedkeys.row),
              op = GenerateSerial req
              /\ filter (linked_to rid) (generatedkeys (committed w)) = []
              /\ filter (linked_to rid) (generatedkeys (committed (snd (handle op w))))
                 = [key].
Proof.
  intros op [c t rs ks cl f n r d tr] HI. cbn [committed] in HI.
  destruct op; unfold_handlers; flat.
  all: repeat branch.
  all: split;
    [ first [ assumption
            | apply I1_insert_unlinked; assumption
            | apply I1_insert_linked; assumption ]
    | intros rid; try (left; reflexivity) ].
  - left. rewrite filter_linked_insert. cbn. apply app_nil_r.
  - rewrite filter_linked_insert. cbn [linked_to Generatedkeys.registration_id].
    destruct (Z.eqb_spec (Registrations.id r0) rid) as [<-|Hne].
    + right. eexists; eexists. split; [reflexivity|].
      split; [assumption|]. match goal with H : filter _ _ = [] |- _ => rewrite H end.
      reflexivity.
    + left. apply app_nil_r.
Qed.

Lemma every_operation_preserves_I1_witness :
  I1 (committed world_registered)
  /\ I1 (committed (snd (handle (GenerateSerial issue_player_1) world_registered))).
Proof.
  assert (H : I1 (committed world_registered)).
  { intros rid. cbn. lia. }
  split; [exact H|].
  exact (proj1 (every_operation_preserves_I1 (GenerateSerial issue_player_1)
                  world_registered H)).
Defined.

(** ** The two checks of a serial *)

(** C10. On the same request and in the same world, [/api/check-serial]
    and [/api/validate-download] answer with the same status, and the
    [exists] flag of the one is the [valid] flag of the other; when the
    field is missing, or the storage fails, the two answers are equal. *)
Theorem check_serial_and_validate_download_agree :
  forall (req : Body) (w : World),
  exists (a1 a2 : Response) (w' : World),
    check_serial req w = (Ok a1, w')
    /\ validate_download req w = (Ok a2, w')
    /\ status a1 = status a2
    /\ get "exists" (body a1) = get "valid" (body a2)
    /\ (status a1 <> 200%Z -> a1 = a2)
    /\ (status a1 = 200%Z ->
        exists b : bool,
          body a1 = JObj [("exists"%string, JBool b)]
          /\ body a2 = JObj [("valid"%string, JBool b)])
    /\ (truthy (serial req) = false -> a1 = serial_key_is_required).
Proof.
  intros req [c t rs ks cl f n r d tr]. unfold_handlers. flat.
  repeat branch.
  all: do 3 eexists; repeat split; try reflexivity; try discriminate.
  - intros H; elim H; reflexivity.
  - intros _. eexists; split; reflexivity.
Qed.



(** ** Further properties of the handlers *)

Lemma I2_insert (t : Tables) (regs : list Registrations.row)
    (i c : Z) (rid : option Z) (s : jsstring) :
  I2 t ->
  existsb (has_serial s) (generatedkeys t) = false ->
  I2 (mkTables regs (generatedkeys t ++ [Generatedkeys.mkRow i rid s c])).
Proof.
  unfold I2. cbn [generatedkeys]. intros H Hnew.
  rewrite map_app. cbn [map Generatedkeys.serial].
  apply NoDup_app; [exact H|repeat constructor; intros []|].
  intros x Hx [<-|[]]. apply in_map_iff in Hx. destruct Hx as [k [E Hk]].
  assert (X : existsb (has_serial (Generatedkeys.serial k)) (generatedkeys t) = true).
  { apply existsb_exists. exists k. split; [exact Hk|]. apply str_eqb_refl. }
  rewrite E in X. congruence.
Qed.

Lemma I3_insert_registration (t : Tables) (r : Registrations.row) :
  I3 t -> I3 (mkTables (registrations t ++ [r]) (generatedkeys t)).
Proof.
  intros H k rid Hk E. destruct (H k rid Hk E) as [x [Hx Hid]].
  exists x. split; [|exact Hid]. cbn. apply in_or_app. left. exact Hx.
Qed.

Lemma I3_insert_key (t : Tables) (i c : Z) (rid : option Z) (s : jsstring) :
  I3 t ->
  (forall r, rid = Some r -> existsb (has_id r) (registrations t) = true) ->
  I3 (mkTables (registrations t) (generatedkeys t ++ [Generatedkeys.mkRow i rid s c])).
Proof.
  intros H Hrid k r Hk E. cbn [generatedkeys registrations] in *.
  apply in_app_or in Hk. destruct Hk as [Hk|[<-|[]]].
  - apply (H k r Hk E).
  - cbn in E. apply Hrid in E. apply existsb_exists in E.
    destruct E as [x [Hx Hid]]. exists x. split; [exact Hx|].
    unfold has_id in Hid. apply Z.eqb_eq. exact Hid.
Qed.

(** Every operation answers, whatever the storage does: no exception
    leaves a handler, and the status is one of 200, 400, 404 and 500. *)
Theorem every_operation_answers :
  forall (op : Operation) (w : World),
  exists resp : Response,
    fst (handle op w) = Ok resp
    /\ In (status resp) [200%Z; 400%Z; 404%Z; 500%Z].
Proof.
  intros op [c t rs ks cl f n r d tr].
  destruct op; unfold_handlers; flat.
  all: repeat branch.
  all: eexists; split; [reflexivity|cbn; tauto].
Qed.

(** A request that is refused with status 400 or 404 by an operation other
    than [/api/generate-serial] has reached no storage call; and whatever
    the operation, such a request changes no committed row. *)
Theorem refused_requests_change_nothing :
  forall (op : Operation) (w : World) (resp : Response) (w' : World),
    handle op w = (Ok resp, w') ->
    status resp = 400%Z \/ status resp = 404%Z ->
    committed w' = committed w
    /\ ((forall req, op <> GenerateSerial req) -> w' = w).
Proof.
  intros op [c t rs ks cl f n r d tr] resp w'.
  destruct op; unfold_handlers; flat.
  all: repeat branch.
  all: intros H; injection H as <- <-; cbn; intros [Hs|Hs]; try discriminate Hs.
  all: split; [reflexivity|]; intros Hop; try reflexivity.
  all: elim (Hop req); reflexivity.
Qed.

Lemma refused_requests_change_nothing_witness :
  committed (snd (handle (GenerateSerial issue_nobody) world_registered))
  = committed world_registered.
Proof.
  refine (proj1 (@refused_requests_change_nothing (GenerateSerial issue_nobody)
                   world_registered registration_not_found _ _ _)).
  - vm_compute. reflexivity.
  - right. reflexivity.
Defined.

(** Every operation preserves I2, the uniqueness of the serials, and I3,
    the referential integrity of the key rows. *)
Theorem every_operation_preserves_I2_and_I3 :
  forall (op : Operation) (w : World),
    I2 (committed w) -> I3 (committed w) ->
    I2 (committed (snd (handle op w))) /\ I3 (committed (snd (handle op w))).
Proof.
  intros op [c t rs ks cl f n r d tr] H2 H3. cbn [committed] in H2, H3.
  destruct op; unfold_handlers; flat.
  all: repeat branch.
  all: split; try assumption.
  all: try (apply I2_insert; assumption).
  all: try (apply (I3_insert_registration _ H3)).
  all: try (apply I3_insert_key; [assumption|]; intros x E; try discriminate E;
            injection E as <-; assumption).
  all: destruct c; assumption.
Qed.

Lemma every_operation_preserves_I2_and_I3_witness :
  I2 (committed (snd (handle (GenerateSerial issue_player_1) world_collision)))
  /\ I3 (committed (snd (handle (GenerateSerial issue_player_1) world_collision))).
Proof.
  apply every_operation_preserves_I2_and_I3.
  - repeat constructor. intros [].
  - intros k rid [<-|[]] E. discriminate E.
Defined.

(** Once [/api/generate-serial] has a client, it releases it on every
    path: the release is the last entry of the trace. *)
Theorem client_is_always_released :
  forall (req : Body) (w : World),
    truthy (robloxUsername req) = true ->
    fault_at w (calls w) = None ->
    exists earlier : list (Stmt * bool),
      trace (snd (generate_serial req w)) = (ClientRelease, true) :: earlier.
Proof.
  intros req [c t rs ks cl f n r d tr]. cbn [fault_at calls].
  intros Ht Hf. unfold_handlers. rewrite Ht. flat. rewrite Hf. flat.
  repeat branch.
  all: eexists; reflexivity.
Qed.

Lemma client_is_always_released_witness :
  exists earlier : list (Stmt * bool),
    trace (snd (generate_serial issue_player_1 world_insert_fails))
    = (ClientRelease, true) :: earlier.
Proof.
  apply client_is_always_released; reflexivity.
Defined.

(** ** What a failure of the storage lets the caller see *)

(** Two runs whose scripts disagree on whether some call fails cannot both
    be at hand. *)
Ltac clash Hf :=
  match goal with
  | E1 : ?a ?n = Some _, E2 : ?b ?n = None |- _ =>
      let X := fresh in
      first [ pose proof (proj1 (Hf n) E2) as X; rewrite X in E1; discriminate E1
            | pose proof (proj2 (Hf n) E2) as X; rewrite X in E1; discriminate E1 ]
  end.

(** C9, as the code has it. For every operation but the health probe, two
    runs that differ only in the messages of the storage failures send the
    same answer, and an answer of status 500 is the generic
    [Internal server error] and nothing else. *)
Theorem storage_failures_are_answered_generically :
  forall (op : Operation) (w1 w2 : World),
    op <> Health ->
    same_up_to_fault_messages w1 w2 ->
    fst (handle op w1) = fst (handle op w2)
    /\ forall resp : Response,
         fst (handle op w1) = Ok resp ->
         status resp = 500%Z ->
         resp = internal_server_error.
Proof.
  intros op [c t rs ks cl f n r d tr] [c2 t2 rs2 ks2 cl2 f2 n2 r2 d2 tr2] Hop.
  unfold same_up_to_fault_messages. cbn.
  intros (<- & <- & <- & <- & <- & <- & <- & <- & <- & Hf).
  destruct op; try (elim Hop; reflexivity); unfold_handlers; flat.
  all: repeat (branch; try (exfalso; clash Hf)).
  all: split; [reflexivity|].
  all: intros resp H; injection H as <-; cbn; intros Hs; try discriminate Hs;
    reflexivity.
Qed.

Lemma storage_failures_are_answered_generically_witness :
  fst (handle (GenerateSerial issue_player_1)
         (world_down (lit "connect ECONNREFUSED 10.0.0.5:5432")))
  = fst (handle (GenerateSerial issue_player_1)
           (world_down (lit "password authentication failed for user render"))).
Proof.
  refine (proj1 (@storage_failures_are_answered_generically
                   (GenerateSerial issue_player_1) _ _ _ _)).
  - discriminate.
  - repeat split; intros H; discriminate H.
Defined.

(** C9 as stated fails for the health probe: two runs in which the storage
    fails with different messages get different answers, each carrying the
    message of its failure. *)
Lemma health_answer_carries_the_storage_message :
  same_up_to_fault_messages
    (world_down (lit "connect ECONNREFUSED 10.0.0.5:5432"))
    (world_down (lit "password authentication failed for user render"))
  /\ fst (health (world_down (lit "connect ECONNREFUSED 10.0.0.5:5432")))
     = Ok (mkResponse 500
             (JObj [("status"%string, JStr (lit "error"));
                    ("database"%string, JStr (lit "disconnected"));
                    ("error"%string, JStr (lit "connect ECONNREFUSED 10.0.0.5:5432"))]))
  /\ fst (health (world_down (lit "connect ECONNREFUSED 10.0.0.5:5432")))
     <> fst (health (world_down (lit "password authentication failed for user render"))).
Proof.
  split; [|split].
  - repeat split; intros H; discriminate H.
  - vm_compute. reflexivity.
  - vm_compute. intros H. discriminate H.
Qed.

Import Concurrent.

(** ** Concurrent requests: the row locks *)

Lemma set_pc_same (i : nat) (p : Pc) (pcs : nat -> Pc) : set_pc i p pcs i = p.
Proof. unfold set_pc. rewrite Nat.eqb_refl. reflexivity. Qed.

Lemma set_pc_other (i j : nat) (p : Pc) (pcs : nat -> Pc) :
  j <> i -> set_pc i p pcs j = pcs j.
Proof.
  intros H. unfold set_pc. destruct (Nat.eqb_spec j i); [contradiction|reflexivity].
Qed.

Lemma locked_by_other_false (i : nat) (ids : list Z) (held : list (Z * nat)) :
  locked_by_other i ids held = false ->
  forall id j, In (id, j) held -> In id ids -> j = i.
Proof.
  unfold locked_by_other. intros H id j Hin Hid.
  destruct (Nat.eqb_spec j i) as [E|Hne]; [exact E|].
  assert (X : existsb
                (fun l => negb (Nat.eqb (snd l) i) && existsb (Z.eqb (fst l)) ids)
                held = true).
  { apply existsb_exists. exists (id, j). split; [exact Hin|]. cbn [fst snd].
    apply andb_true_iff. split.
    - destruct (Nat.eqb_spec j i); [contradiction|reflexivity].
    - apply existsb_exists. exists id. split; [exact Hid|apply Z.eqb_refl]. }
  congruence.
Qed.

(** While the locks are free for [i], no other request is in its critical
    section. *)
Lemma no_other_critical (n : nat) (ids : list Z) (pcs : nat -> Pc)
    (held : list (Z * nat)) (i : nat) (id0 : Z) :
  lock_inv n ids pcs held ->
  In id0 ids ->
  locked_by_other i ids held = false ->
  forall j, j < n -> critical (pcs j) = true -> j = i.
Proof.
  intros [Hl _] Hid Hfree j Hj Hc.
  apply (@locked_by_other_false _ _ _ Hfree id0 j); [|exact Hid].
  apply Hl. auto.
Qed.

Lemma lock_inv_same (n : nat) (ids : list Z) (pcs : nat -> Pc)
    (held : list (Z * nat)) (i : nat) (p : Pc) :
  lock_inv n ids pcs held ->
  critical p = critical (pcs i) ->
  lock_inv n ids (set_pc i p pcs) held.
Proof.
  intros [Hl Hm] Hc.
  assert (E : forall j, critical (set_pc i p pcs j) = critical (pcs j)).
  { intros j. unfold set_pc. destruct (Nat.eqb_spec j i) as [->|]; auto. }
  split.
  - intros id j. rewrite E. apply Hl.
  - intros a b Ha Hb. rewrite !E. apply Hm; assumption.
Qed.

Lemma lock_inv_enter (n : nat) (ids : list Z) (pcs : nat -> Pc)
    (held : list (Z * nat)) (i : nat) (p : Pc) (id0 : Z) :
  lock_inv n ids pcs held ->
  i < n ->
  critical (pcs i) = false ->
  critical p = true ->
  In id0 ids ->
  locked_by_other i ids held = false ->
  lock_inv n ids (set_pc i p pcs) (held ++ map (fun id => (id, i)) ids).
Proof.
  intros Hinv Hi Hnc Hc Hid Hfree.
  pose proof (@no_other_critical _ _ _ _ i id0 Hinv Hid Hfree) as Hnone.
  destruct Hinv as [Hl Hm].
  assert (Hheld : forall id j, ~ In (id, j) held).
  { intros id j Hin. apply Hl in Hin. destruct Hin as (Hj & Hcj & _).
    assert (j = i) by (apply Hnone; assumption). subst j. congruence. }
  split.
  - intros id j. rewrite in_app_iff, in_map_iff. split.
    + intros [Hin|[x [Hx Hin]]].
      * elim (Hheld _ _ Hin).
      * injection Hx as <- <-. rewrite set_pc_same. auto.
    + intros (Hj & Hcj & Hin). right. exists id. split; [|exact Hin].
      destruct (Nat.eq_dec j i) as [->|Hne]; [reflexivity|].
      rewrite set_pc_other in Hcj by exact Hne.
      elim Hne. apply Hnone; assumption.
  - intros a b Ha Hb Hca Hcb.
    assert (Ea : a = i).
    { destruct (Nat.eq_dec a i) as [E|Hne]; [exact E|].
      rewrite set_pc_other in Hca by exact Hne. apply Hnone; assumption. }
    assert (Eb : b = i).
    { destruct (Nat.eq_dec b i) as [E|Hne]; [exact E|].
      rewrite set_pc_other in Hcb by exact Hne. apply Hnone; assumption. }
    congruence.
Qed.

Lemma lock_inv_leave (n : nat) (ids : list Z) (pcs : nat -> Pc)
    (held : list (Z * nat)) (i : nat) (p : Pc) :
  lock_inv n ids pcs held ->
  critical p = false ->
  lock_inv n ids (set_pc i p pcs)
    (filter (fun l => negb (Nat.eqb (snd l) i)) held).
Proof.
  intros [Hl Hm] Hc. split.
  - intros id j. rewrite filter_In. cbn [snd]. rewrite Hl.
    destruct (Nat.eqb_spec j i) as [->|Hne].
    + rewrite set_pc_same, Hc. cbn. split.
      * intros [_ H]; discriminate H.
      * intros (_ & H & _); discriminate H.
    + rewrite set_pc_other by exact Hne. cbn. tauto.
  - intros a b Ha Hb Hca Hcb.
    destruct (Nat.eq_dec a i) as [->|Hna].
    { rewrite set_pc_same in Hca. congruence. }
    destruct (Nat.eq_dec b i) as [->|Hnb].
    { rewrite set_pc_same in Hcb. congruence. }
    rewrite set_pc_other in Hca, Hcb by assumption.
    apply Hm; assumption.
Qed.

(** ** Concurrent requests for one registration: the invariant *)

Section OneRegistration.

Variable n : nat.
Variable req : Body.
Variable w : World.
Variable registration : Registrations.row.
Variable others : list Registrations.row.

Hypothesis Htruthy : truthy (robloxUsername req) = true.
Hypothesis Hreg :
  filter (has_username (param (robloxUsername req))) (registrations (committed w))
  = registration :: others.
Hypothesis Hnokey :
  filter (linked_to (Registrations.id registration)) (generatedkeys (committed w)) = [].
Hypothesis Hfresh :
  existsb (has_serial (candidate w)) (generatedkeys (committed w)) = false.

Local Notation rid := (Registrations.id registration).
Local Notation ids0 := (map Registrations.id (registration :: others)).
Local Notation I := (Inv n req w registration others).
Local Notation answered_up_to := (answered_up_to n req w registration others).

Lemma rid_in_ids0 : In rid ids0.
Proof. left. reflexivity. Qed.

Lemma idle_not_critical (p : Pc) : idle p -> critical p = false.
Proof. intros [->|[->| ->]]; reflexivity. Qed.

(** An idle request is not the winner, and may stand at any idle place. *)
Lemma allowed_idle (ph : Phase) (j : nat) (p p' : Pc) :
  idle p -> allowed w registration ph j p -> idle p' ->
  allowed w registration ph j p'.
Proof.
  intros Hp Hal Hp'. destruct ph as [|win|win|win]; cbn in *.
  - left. exact Hp'.
  - destruct (Nat.eqb j win); [|exact Hp'].
    subst p. destruct Hp as [H|[H|H]]; discriminate H.
  - destruct (Nat.eqb j win); [|exact Hp'].
    subst p. destruct Hp as [H|[H|H]]; discriminate H.
  - destruct (Nat.eqb j win).
    + subst p. destruct Hp as [H|[H|H]]; discriminate H.
    + left. exact Hp'.
Qed.

Lemma allowed_set_pc (ph : Phase) (pcs : nat -> Pc) (i : nat) (p : Pc) :
  (forall j, j < n -> allowed w registration ph j (pcs j)) ->
  allowed w registration ph i p ->
  forall j, j < n -> allowed w registration ph j (set_pc i p pcs j).
Proof.
  intros H Hp j Hj. unfold set_pc. destruct (Nat.eqb_spec j i) as [->|]; auto.
Qed.

(** A step that keeps the phase: it changes the places of the requests, the
    locks and the statements sent, none of them an [INSERT]. *)
Lemma Inv_same_data (ph : Phase) (s s' : State) :
  I ph s ->
  tables s' = tables s -> pending s' = pending s ->
  key_seq s' = key_seq s -> now s' = now s -> rand s' = rand s ->
  drawn s' = drawn s -> inserts (sent s') = inserts (sent s) ->
  request s' = request s -> launched s' = launched s ->
  (forall j, j < n -> allowed w registration ph j (pc s' j)) ->
  lock_inv n ids0 (pc s') (locks s') ->
  I ph s'.
Proof.
  intros H Et Ep Ek En Er Ed Es Eq Ela Hpc Hl.
  destruct H. constructor; rewrite ?Et, ?Ep, ?Ek, ?En, ?Er, ?Ed, ?Es, ?Eq, ?Ela;
    assumption.
Qed.

Lemma Inv_idle_move (ph : Phase) (s : State) (i : nat) (p : Pc) (q : Stmt) :
  I ph s ->
  idle (pc s i) -> idle p -> i < n ->
  inserts [(i, q)] = [] ->
  I ph (goto i p (send i q s)).
Proof.
  intros H Hidle Hp Hi Hq.
  apply (@Inv_same_data ph s _ H); try reflexivity.
  - cbn [sent goto send]. unfold inserts in *. cbn [filter] in *.
    destruct (match snd (i, q) with InsertKey _ _ => true | _ => false end);
      [discriminate Hq|reflexivity].
  - apply allowed_set_pc; [apply (inv_pc H)|].
    apply (@allowed_idle ph i (pc s i) p); auto. apply (inv_pc H). exact Hi.
  - apply lock_inv_same; [apply (inv_locks H)|].
    rewrite !idle_not_critical; auto.
Qed.

Lemma step_start (ph : Phase) (s : State) (i : nat) :
  I ph s -> i < n -> pc s i = Start ->
  I ph (goto i AwaitBegin (send i PoolConnect s)).
Proof.
  intros H Hi Hpc.
  apply Inv_idle_move; try assumption; try reflexivity.
  - rewrite Hpc. left; reflexivity.
  - right; left; reflexivity.
Qed.

Lemma step_begin (ph : Phase) (s : State) (i : nat) :
  I ph s -> i < n -> pc s i = AwaitBegin ->
  I ph (goto i AwaitRegistration (send i Begin s)).
Proof.
  intros H Hi Hpc.
  apply Inv_idle_move; try assumption; try reflexivity.
  - rewrite Hpc. right; left; reflexivity.
  - right; right; reflexivity.
Qed.

Ltac not_idle H := destruct H as [H|[H|H]]; discriminate H.

(** What the phase allows for a request in its critical section. *)
Lemma allowed_keys (ph : Phase) (j : nat) (r : Z) :
  allowed w registration ph j (AwaitKeys r) ->
  r = rid /\ (ph = NoKey \/ exists win, ph = Committed win /\ j <> win).
Proof.
  destruct ph as [|win|win|win]; cbn.
  - intros [H|H]; [not_idle H|]. injection H as ->. auto.
  - destruct (Nat.eqb j win); intros H; [discriminate H|not_idle H].
  - destruct (Nat.eqb j win); intros H; [discriminate H|not_idle H].
  - destruct (Nat.eqb_spec j win); intros H; [discriminate H|].
    destruct H as [H|[H|[H|H]]]; try discriminate H; [not_idle H|].
    injection H as ->. split; [reflexivity|]. right. exists win. auto.
Qed.

Lemma allowed_insert (ph : Phase) (j : nat) (r : Z) (x : jsstring) :
  allowed w registration ph j (AwaitInsert r x) ->
  r = rid /\ x = candidate w /\ ph = Drawn j.
Proof.
  destruct ph as [|win|win|win]; cbn.
  - intros [H|H]; [not_idle H|discriminate H].
  - destruct (Nat.eqb_spec j win); intros H; [|not_idle H].
    injection H as -> ->. subst. auto.
  - destruct (Nat.eqb j win); intros H; [discriminate H|not_idle H].
  - destruct (Nat.eqb j win); intros H; [discriminate H|].
    destruct H as [H|[H|[H|H]]]; try discriminate H. not_idle H.
Qed.

Lemma allowed_commit (ph : Phase) (j : nat) (key : Generatedkeys.row) :
  allowed w registration ph j (AwaitCommit key) ->
  key = issued_key w registration /\ ph = Inserted j.
Proof.
  destruct ph as [|win|win|win]; cbn.
  - intros [H|H]; [not_idle H|discriminate H].
  - destruct (Nat.eqb j win); intros H; [discriminate H|not_idle H].
  - destruct (Nat.eqb_spec j win); intros H; [|not_idle H].
    injection H as ->. subst. auto.
  - destruct (Nat.eqb j win); intros H; [discriminate H|].
    destruct H as [H|[H|[H|H]]]; try discriminate H. not_idle H.
Qed.

Lemma allowed_rollback (ph : Phase) (j : nat) (answer : Response) :
  allowed w registration ph j (AwaitRollback answer) ->
  answer = serial_key_already_generated (candidate w)
  /\ exists win, ph = Committed win /\ j <> win.
Proof.
  destruct ph as [|win|win|win]; cbn.
  - intros [H|H]; [not_idle H|discriminate H].
  - destruct (Nat.eqb j win); intros H; [discriminate H|not_idle H].
  - destruct (Nat.eqb j win); intros H; [discriminate H|not_idle H].
  - destruct (Nat.eqb_spec j win); intros H; [discriminate H|].
    destruct H as [H|[H|[H|H]]]; try discriminate H; [not_idle H|].
    injection H as ->. split; [reflexivity|]. exists win. auto.
Qed.

Lemma allowed_catch (ph : Phase) (j : nat) :
  ~ allowed w registration ph j AwaitCatchRollback.
Proof.
  destruct ph as [|win|win|win]; cbn.
  - intros [H|H]; [not_idle H|discriminate H].
  - destruct (Nat.eqb j win); intros H; [discriminate H|not_idle H].
  - destruct (Nat.eqb j win); intros H; [discriminate H|not_idle H].
  - destruct (Nat.eqb j win); intros H; [discriminate H|].
    destruct H as [H|[H|[H|H]]]; try discriminate H. not_idle H.
Qed.

(** In the phases [Drawn] and [Inserted] the winner is in its critical
    section. *)
Lemma winner_is_critical (ph : Phase) (s : State) :
  I ph s ->
  forall win, ph = Drawn win \/ ph = Inserted win ->
  win < n /\ critical (pc s win) = true.
Proof.
  intros H win [->| ->].
  - assert (Hw : win < n) by (apply (inv_winner H); reflexivity).
    split; [exact Hw|]. pose proof (inv_pc H Hw) as Hal. cbn in Hal.
    rewrite Nat.eqb_refl in Hal. rewrite Hal. reflexivity.
  - assert (Hw : win < n) by (apply (inv_winner H); reflexivity).
    split; [exact Hw|]. pose proof (inv_pc H Hw) as Hal. cbn in Hal.
    rewrite Nat.eqb_refl in Hal. rewrite Hal. reflexivity.
Qed.


Lemma step_registration (ph : Phase) (s : State) (i : nat) :
  I ph s -> i < n -> pc s i = AwaitRegistration ->
  locked_by_other i ids0 (locks s) = false ->
  I ph (goto i (AwaitKeys rid)
          (send i (SelectRegistrationForUpdate (param (robloxUsername req)))
             (lock i ids0 s))).
Proof.
  intros H Hi Hpc Hfree.
  pose proof (@no_other_critical _ _ _ _ i rid (inv_locks H) rid_in_ids0 Hfree) as Hnone.
  apply (@Inv_same_data ph s _ H); try reflexivity.
  - cbn [pc goto send lock]. apply allowed_set_pc; [apply (inv_pc H)|].
    pose proof (inv_pc H Hi) as Hal. rewrite Hpc in Hal.
    destruct ph as [|win|win|win]; cbn in *.
    + right; reflexivity.
    + destruct (winner_is_critical H (or_introl eq_refl)) as [Hw Hc].
      pose proof (Hnone win Hw Hc) as E. subst win.
      rewrite Hpc in Hc. discriminate Hc.
    + destruct (winner_is_critical H (or_intror eq_refl)) as [Hw Hc].
      pose proof (Hnone win Hw Hc) as E. subst win.
      rewrite Hpc in Hc. discriminate Hc.
    + destruct (Nat.eqb i win); [discriminate Hal|]. right; left; reflexivity.
  - cbn [pc locks goto send lock].
    apply (@lock_inv_enter n ids0 (pc s) (locks s) i (AwaitKeys rid) rid);
      try assumption; try reflexivity.
    + apply (inv_locks H).
    + rewrite Hpc. reflexivity.
    + apply rid_in_ids0.
Qed.

Lemma own_nil (i : nat) : own i [] = [].
Proof. reflexivity. Qed.

(** The request that finds no key draws the serial and becomes the
    winner. *)
Lemma step_keys_none (s : State) (i : nat) :
  I NoKey s -> i < n -> pc s i = AwaitKeys rid ->
  I (Drawn i)
    (goto i (AwaitInsert rid (candidate w))
       (draw_two (send i (SelectKeysByRegistration rid) s))).
Proof.
  intros H Hi Hpc.
  destruct (inv_locks H) as [Hl Hm].
  constructor; cbn [request launched rand now tables pending drawn key_seq sent pc locks
                      goto send draw_two winner_of].
  - apply (inv_request H).
  - apply (inv_launched H).
  - apply (inv_rand H).
  - apply (inv_now H).
  - apply (inv_registrations H).
  - apply (inv_keys H).
  - apply (inv_pending H).
  - rewrite (inv_drawn H). reflexivity.
  - apply (inv_key_seq H).
  - change (inserts ((i, SelectKeysByRegistration rid) :: sent s)) with (inserts (sent s)).
    apply (inv_inserts H).
  - intros k E. injection E as <-. exact Hi.
  - intros j Hj. cbn [allowed].
    destruct (Nat.eqb_spec j i) as [->|Hne].
    + reflexivity.
    + cbv beta iota.
      pose proof (inv_pc H Hj) as Hal. cbn in Hal.
      destruct Hal as [Hal|Hal]; [exact Hal|].
      elim Hne. apply Hm; try assumption.
      * rewrite Hal. reflexivity.
      * rewrite Hpc. reflexivity.
  - apply lock_inv_same; [apply (inv_locks H)|]. rewrite Hpc. reflexivity.
Qed.

(** A request that finds the key of the winner goes on to roll back and to
    answer with its serial. *)
Lemma step_keys_found (win : nat) (s : State) (i : nat) :
  I (Committed win) s -> i < n -> i <> win -> pc s i = AwaitKeys rid ->
  I (Committed win)
    (goto i (AwaitRollback (serial_key_already_generated (candidate w)))
       (send i (SelectKeysByRegistration rid) s)).
Proof.
  intros H Hi Hne Hpc.
  apply (@Inv_same_data (Committed win) s _ H); try reflexivity.
  - cbn [pc goto send]. apply allowed_set_pc; [apply (inv_pc H)|].
    cbn. destruct (Nat.eqb_spec i win); [contradiction|].
    right; right; left; reflexivity.
  - cbn [pc locks goto send].
    apply lock_inv_same; [apply (inv_locks H)|]. rewrite Hpc. reflexivity.
Qed.

Lemma step_insert (s : State) (i : nat) :
  I (Drawn i) s -> i < n ->
  I (Inserted i)
    (goto i (AwaitCommit (issued_key w registration))
       (insert_pending i (issued_key w registration)
          (send i (InsertKey rid (candidate w)) (next_key s)))).
Proof.
  intros H Hi.
  assert (Hpc : pc s i = AwaitInsert rid (candidate w)).
  { pose proof (inv_pc H Hi) as Hal. cbn in Hal. rewrite Nat.eqb_refl in Hal.
    exact Hal. }
  constructor; cbn [request launched rand now tables pending drawn key_seq sent pc locks
                      goto send insert_pending next_key winner_of].
  - apply (inv_request H).
  - apply (inv_launched H).
  - apply (inv_rand H).
  - apply (inv_now H).
  - apply (inv_registrations H).
  - apply (inv_keys H).
  - rewrite (inv_pending H). reflexivity.
  - apply (inv_drawn H).
  - rewrite (inv_key_seq H). reflexivity.
  - change (inserts ((i, InsertKey rid (candidate w)) :: sent s))
      with ((i, InsertKey rid (candidate w)) :: inserts (sent s)).
    rewrite (inv_inserts H). reflexivity.
  - intros k E. injection E as <-. exact Hi.
  - intros j Hj. cbn [allowed].
    destruct (Nat.eqb_spec j i) as [->|Hne].
    + reflexivity.
    + cbv beta iota.
      pose proof (inv_pc H Hj) as Hal. cbn in Hal.
      destruct (Nat.eqb_spec j i); [contradiction|exact Hal].
  - apply lock_inv_same; [apply (inv_locks H)|]. rewrite Hpc. reflexivity.
Qed.

Lemma step_commit (s : State) (i : nat) :
  I (Inserted i) s -> i < n ->
  I (Committed i)
    (goto i (Done (serial_key_generated (candidate w)))
       (send i Commit (end_transaction i true s))).
Proof.
  intros H Hi.
  constructor; cbn [request launched rand now tables pending drawn key_seq sent pc locks
                      goto send end_transaction winner_of registrations generatedkeys].
  - apply (inv_request H).
  - apply (inv_launched H).
  - apply (inv_rand H).
  - apply (inv_now H).
  - apply (inv_registrations H).
  - rewrite (inv_keys H), (inv_pending H). unfold own. cbn [filter fst].
    rewrite Nat.eqb_refl. reflexivity.
  - rewrite (inv_pending H). unfold of_others. cbn [filter fst].
    rewrite Nat.eqb_refl. reflexivity.
  - apply (inv_drawn H).
  - apply (inv_key_seq H).
  - change (inserts ((i, Commit) :: sent s)) with (inserts (sent s)).
    apply (inv_inserts H).
  - intros k E. injection E as <-. exact Hi.
  - intros j Hj. cbn [allowed].
    destruct (Nat.eqb_spec j i) as [->|Hne].
    + reflexivity.
    + cbv beta iota.
      pose proof (inv_pc H Hj) as Hal. cbn in Hal.
      destruct (Nat.eqb_spec j i); [contradiction|]. left. exact Hal.
  - apply lock_inv_leave; [apply (inv_locks H)|reflexivity].
Qed.

Lemma step_rollback (win : nat) (s : State) (i : nat) :
  I (Committed win) s -> i < n -> i <> win ->
  pc s i = AwaitRollback (serial_key_already_generated (candidate w)) ->
  I (Committed win)
    (goto i (Done (serial_key_already_generated (candidate w)))
       (send i Rollback (end_transaction i false s))).
Proof.
  intros H Hi Hne Hpc.
  apply (@Inv_same_data (Committed win) s _ H); try reflexivity.
  - cbn [pending goto send end_transaction]. rewrite (inv_pending H). reflexivity.
  - cbn [pc goto send end_transaction]. apply allowed_set_pc; [apply (inv_pc H)|].
    cbn. destruct (Nat.eqb_spec i win); [contradiction|].
    right; right; right; reflexivity.
  - cbn [pc locks goto send end_transaction].
    apply lock_inv_leave; [apply (inv_locks H)|reflexivity].
Qed.

(** A step of [i] moves no other request. *)
Lemma step_other (s : State) (i j : nat) : j <> i -> pc (step i s) j = pc s j.
Proof.
  intros Hne. unfold step.
  assert (G : forall p s0, pc (goto i p s0) j = pc s0 j).
  { intros p s0. cbn. destruct (Nat.eqb_spec j i); [contradiction|reflexivity]. }
  destruct (negb (Nat.ltb i (launched s))); [reflexivity|].
  destruct (pc s i); cbv zeta;
    repeat match goal with
           | |- context [if ?b then _ else _] => destruct b
           | |- context [match ?l with [] => _ | _ :: _ => _ end] => destruct l
           end;
    rewrite ?G; reflexivity.
Qed.

Lemma issued_key_is_linked :
  filter (linked_to rid) (generatedkeys (committed w) ++ [issued_key w registration])
  = [issued_key w registration].
Proof.
  rewrite filter_linked_insert, Hnokey. unfold linked_to, issued_key.
  cbn [Generatedkeys.registration_id]. rewrite Z.eqb_refl. reflexivity.
Qed.

(** What a step of a launched request does: it keeps the invariant, and it
    either waits for the row locks, or finds the request answered, or
    brings the request nearer to its answer. *)
Lemma step_cases (ph : Phase) (s : State) (i : nat) :
  I ph s -> i < n ->
  exists ph',
    I ph' (step i s)
    /\ ((pc s i = AwaitRegistration
         /\ locked_by_other i ids0 (locks s) = true /\ step i s = s)
        \/ (is_done (pc s i) = true /\ step i s = s)
        \/ remaining (pc (step i s) i) < remaining (pc s i)).
Proof.
  intros H Hi. unfold step. rewrite (inv_launched H).
  destruct (Nat.ltb_spec i n) as [_|Hge]; [|lia]. cbn [negb].
  pose proof (inv_pc H Hi) as Hal.
  destruct (pc s i) eqn:Hpc; cbv zeta.
  - rewrite (inv_request H), Htruthy. cbn [negb]. exists ph. split.
    + apply step_start; assumption.
    + right; right. cbn. rewrite Nat.eqb_refl. cbn. lia.
  - exists ph. split.
    + apply step_begin; assumption.
    + right; right. cbn. rewrite Nat.eqb_refl. cbn. lia.
  - rewrite (inv_request H), (inv_registrations H), Hreg.
    destruct (locked_by_other i ids0 (locks s)) eqn:Hfree.
    + exists ph. split; [exact H|]. left. auto.
    + exists ph. split.
      * apply step_registration; assumption.
      * right; right. cbn. rewrite Nat.eqb_refl. cbn. lia.
  - destruct (@allowed_rollback _ _ _ Hal) as [-> [win [-> Hne]]].
    exists (Committed win). split.
    + apply step_rollback; assumption.
    + right; right. cbn. rewrite Nat.eqb_refl. cbn. lia.
  - destruct (@allowed_keys _ _ _ Hal) as [-> [-> | [win [-> Hne]]]].
    + rewrite (inv_keys H), (inv_pending H), own_nil, app_nil_r, Hnokey.
      rewrite !(inv_rand H), (inv_drawn H). fold (candidate w).
      exists (Drawn i). split.
      * apply step_keys_none; assumption.
      * right; right. cbn. rewrite Nat.eqb_refl. cbn. lia.
    + rewrite (inv_keys H), (inv_pending H), own_nil, app_nil_r, issued_key_is_linked.
      cbn [issued_key Generatedkeys.serial].
      exists (Committed win). split.
      * apply step_keys_found; assumption.
      * right; right. cbn. rewrite Nat.eqb_refl. cbn. lia.
  - destruct (@allowed_insert _ _ _ _ Hal) as [-> [-> ->]].
    rewrite (inv_pending H). cbn [of_others filter map existsb].
    rewrite (inv_keys H), own_nil, app_nil_r, Hfresh, (inv_registrations H).
    rewrite (found_registration_exists _ _ Hreg). cbn [negb].
    rewrite (inv_key_seq H), (inv_now H). fold (candidate w).
    fold (issued_key w registration).
    exists (Inserted i). split.
    + apply step_insert; assumption.
    + right; right. cbn. rewrite Nat.eqb_refl. cbn. lia.
  - destruct (@allowed_commit _ _ _ Hal) as [-> ->].
    cbn [issued_key Generatedkeys.serial].
    exists (Committed i). split.
    + apply step_commit; assumption.
    + right; right. cbn. rewrite Nat.eqb_refl. cbn. lia.
  - elim (@allowed_catch _ _ Hal).
  - exists ph. split; [exact H|]. right; left. auto.
Qed.

Lemma step_preserves (ph : Phase) (s : State) (i : nat) :
  I ph s -> exists ph', I ph' (step i s).
Proof.
  intros H. destruct (Nat.lt_ge_cases i n) as [Hi|Hge].
  - destruct (step_cases H Hi) as [ph' [H' _]]. exists ph'. exact H'.
  - exists ph. unfold step. rewrite (inv_launched H).
    destruct (Nat.ltb_spec i n) as [Hlt|_]; [lia|]. exact H.
Qed.

Lemma run_preserves (schedule : list nat) :
  forall (ph : Phase) (s : State),
    I ph s -> exists ph', I ph' (run schedule s).
Proof.
  induction schedule as [|i schedule IH]; intros ph s H.
  - exists ph. exact H.
  - destruct (step_preserves i H) as [ph1 H1]. apply (IH ph1). exact H1.
Qed.

Lemma launch_Inv : I NoKey (launch n (fun _ => req) w).
Proof.
  constructor; cbn; try reflexivity.
  - intros i E. discriminate E.
  - intros j _. left; left; reflexivity.
  - split.
    + intros id j. split; [intros []|intros (_ & E & _); discriminate E].
    + intros a b _ _ E. discriminate E.
Qed.

Lemma all_done_iff (s : State) :
  all_done s = true <-> forall i, i < launched s -> is_done (pc s i) = true.
Proof.
  unfold all_done. rewrite forallb_forall. split.
  - intros H i Hi. apply H. apply in_seq. lia.
  - intros H i Hi. apply in_seq in Hi. apply H. lia.
Qed.

Lemma done_not_critical (p : Pc) : is_done p = true -> critical p = false.
Proof. destruct p; intros E; try discriminate E; reflexivity. Qed.

(** What the invariant says once every request is answered. *)
Lemma finished (ph : Phase) (s : State) :
  I ph s -> all_done s = true -> 0 < n ->
  exists win : nat,
    win < n
    /\ pc s win = Done (serial_key_generated (candidate w))
    /\ (forall j, j < n -> j <> win ->
                  pc s j = Done (serial_key_already_generated (candidate w)))
    /\ generatedkeys (tables s)
       = generatedkeys (committed w) ++ [issued_key w registration]
    /\ filter (linked_to rid) (generatedkeys (tables s)) = [issued_key w registration]
    /\ inserts (sent s) = [(win, InsertKey rid (candidate w))]
    /\ pending s = []
    /\ locks s = [].
Proof.
  intros H Hdone Hn. rewrite all_done_iff, (inv_launched H) in Hdone.
  assert (Hph : exists win, ph = Committed win).
  { destruct ph as [|win|win|win].
    - pose proof (inv_pc H Hn) as Hal. pose proof (Hdone 0 Hn) as Hd. cbn in Hal.
      destruct Hal as [[E|[E|E]]|E]; rewrite E in Hd; discriminate Hd.
    - destruct (winner_is_critical H (or_introl eq_refl)) as [Hw Hc].
      rewrite (done_not_critical _ (Hdone win Hw)) in Hc. discriminate Hc.
    - destruct (winner_is_critical H (or_intror eq_refl)) as [Hw Hc].
      rewrite (done_not_critical _ (Hdone win Hw)) in Hc. discriminate Hc.
    - exists win. reflexivity. }
  destruct Hph as [win ->]. exists win.
  assert (Hw : win < n) by (apply (inv_winner H); reflexivity).
  split; [exact Hw|]. split; [|split; [|split; [|split; [|split; [|split]]]]].
  - pose proof (inv_pc H Hw) as Hal. cbn in Hal. rewrite Nat.eqb_refl in Hal.
    exact Hal.
  - intros j Hj Hne. pose proof (inv_pc H Hj) as Hal. cbn in Hal.
    destruct (Nat.eqb_spec j win); [contradiction|].
    pose proof (Hdone j Hj) as Hd.
    destruct Hal as [[E|[E|E]]|[E|[E|E]]]; rewrite E in Hd; try discriminate Hd.
    exact E.
  - apply (inv_keys H).
  - rewrite (inv_keys H). apply issued_key_is_linked.
  - apply (inv_inserts H).
  - apply (inv_pending H).
  - destruct (inv_locks H) as [Hl _].
    destruct (locks s) as [|[id j] l]; [reflexivity|].
    assert (X : In (id, j) ((id, j) :: l)) by (left; reflexivity).
    apply Hl in X. destruct X as (Hj & Hc & _).
    rewrite (done_not_critical _ (Hdone j Hj)) in Hc. discriminate Hc.
Qed.

(** *** Progress *)

Lemma not_blocked (ph : Phase) (s : State) (i : nat) :
  I ph s ->
  (forall j, j < n -> j <> i -> critical (pc s j) = false) ->
  critical (pc s i) = false ->
  locked_by_other i ids0 (locks s) = false.
Proof.
  intros H Hothers Hi.
  destruct (locked_by_other i ids0 (locks s)) eqn:E; [|reflexivity].
  unfold locked_by_other in E. apply existsb_exists in E.
  destruct E as [[id j] [Hin Hb]]. cbn [fst snd] in Hb.
  apply andb_true_iff in Hb. destruct Hb as [Hne _].
  destruct (inv_locks H) as [Hl _]. apply Hl in Hin. destruct Hin as (Hj & Hc & _).
  destruct (Nat.eqb_spec j i) as [->|Hji]; [discriminate Hne|].
  rewrite (Hothers j Hj Hji) in Hc. discriminate Hc.
Qed.

Lemma remaining_zero (p : Pc) : remaining p = 0 -> is_done p = true.
Proof. destruct p; intros E; try discriminate E; reflexivity. Qed.

(** A request that is given [m] statements in a row while no other request
    is in its critical section gets its answer, if [m] is enough. *)
Lemma solo_run (m : nat) :
  forall (ph : Phase) (s : State) (i : nat),
    I ph s -> i < n ->
    (forall j, j < n -> j <> i -> critical (pc s j) = false) ->
    remaining (pc s i) <= m ->
    exists ph',
      I ph' (run (repeat i m) s)
      /\ is_done (pc (run (repeat i m) s) i) = true
      /\ forall j, j <> i -> pc (run (repeat i m) s) j = pc s j.
Proof.
  induction m as [|m IH]; intros ph s i H Hi Hothers Hrem.
  - exists ph. cbn. split; [exact H|]. split; [|reflexivity].
    apply remaining_zero. lia.
  - cbn [repeat run fold_left]. fold (run (repeat i m) (step i s)).
    destruct (step_cases H Hi) as [ph1 [H1 Hcase]].
    assert (Hothers1 : forall j, j < n -> j <> i -> critical (pc (step i s) j) = false).
    { intros j Hj Hne. rewrite step_other by exact Hne. apply Hothers; assumption. }
    assert (Hrem1 : remaining (pc (step i s) i) <= m).
    { destruct Hcase as [(Hpc & Hblocked & _)|[(Hd & E)|Hlt]].
      - rewrite (not_blocked H Hothers) in Hblocked; [discriminate Hblocked|].
        rewrite Hpc. reflexivity.
      - rewrite E. destruct (pc s i); try discriminate Hd. cbn. lia.
      - lia. }
    destruct (IH ph1 (step i s) i H1 Hi Hothers1 Hrem1) as [ph' (H' & Hd & Hsame)].
    exists ph'. split; [exact H'|]. split; [exact Hd|].
    intros j Hne. rewrite Hsame by exact Hne. apply step_other. exact Hne.
Qed.

Lemma run_app (a b : list nat) (s : State) : run (a ++ b) s = run b (run a s).
Proof. unfold run. apply fold_left_app. Qed.

Lemma one_by_one_from (len : nat) :
  forall (k : nat) (s : State),
    answered_up_to k s -> k + len = n ->
    answered_up_to n (run (flat_map (fun i => repeat i 6) (seq k len)) s).
Proof.
  induction len as [|len IH]; intros k s Hs Hk.
  - cbn. assert (E : k = n) by lia. subst k. exact Hs.
  - cbn [seq flat_map]. rewrite run_app.
    destruct Hs as ([ph H] & Hdone & Hstart).
    assert (Hi : k < n) by lia.
    assert (Hothers : forall j, j < n -> j <> k -> critical (pc s j) = false).
    { intros j _ Hne. destruct (Nat.lt_ge_cases j k) as [Hlt|Hge].
      - apply done_not_critical, Hdone, Hlt.
      - rewrite Hstart by lia. reflexivity. }
    assert (Hrem : remaining (pc s k) <= 6).
    { rewrite Hstart by lia. cbn. lia. }
    destruct (solo_run H Hi Hothers Hrem) as [ph' (H' & Hd & Hsame)].
    apply (IH (S k)); [|lia].
    split; [exists ph'; exact H'|]. split.
    + intros j Hj. destruct (Nat.eq_dec j k) as [->|Hne]; [exact Hd|].
      rewrite Hsame by exact Hne. apply Hdone. lia.
    + intros j Hj. rewrite Hsame by lia. apply Hstart. lia.
Qed.

Lemma one_by_one_completes :
  all_done (run (one_by_one n) (launch n (fun _ => req) w)) = true.
Proof.
  assert (H0 : answered_up_to 0 (launch n (fun _ => req) w)).
  { split; [exists NoKey; apply launch_Inv|]. split.
    - intros j Hj. lia.
    - intros j _. reflexivity. }
  destruct (one_by_one_from n H0 (Nat.add_0_l n)) as ([ph H] & Hdone & _).
  apply all_done_iff. unfold one_by_one. rewrite (inv_launched H). exact Hdone.
Qed.

(** Every execution of [n] requests for the registration that leaves no
    request unanswered. *)
Lemma every_complete_run (schedule : list nat) :
  all_done (run schedule (launch n (fun _ => req) w)) = true ->
  0 < n ->
  exists win : nat,
    win < n
    /\ pc (run schedule (launch n (fun _ => req) w)) win
       = Done (serial_key_generated (candidate w))
    /\ (forall j, j < n -> j <> win ->
          pc (run schedule (launch n (fun _ => req) w)) j
          = Done (serial_key_already_generated (candidate w)))
    /\ generatedkeys (tables (run schedule (launch n (fun _ => req) w)))
       = generatedkeys (committed w) ++ [issued_key w registration]
    /\ filter (linked_to rid)
         (generatedkeys (tables (run schedule (launch n (fun _ => req) w))))
       = [issued_key w registration]
    /\ inserts (sent (run schedule (launch n (fun _ => req) w)))
       = [(win, InsertKey rid (candidate w))]
    /\ pending (run schedule (launch n (fun _ => req) w)) = []
    /\ locks (run schedule (launch n (fun _ => req) w)) = [].
Proof.
  intros Hdone Hn.
  destruct (run_preserves schedule launch_Inv) as [ph H].
  apply (finished H Hdone Hn).
Qed.

End OneRegistration.

(** Under concurrent requests for one registration the committed rows keep
    invariant I1 at every moment. *)
Lemma concurrent_requests_keep_I1
    (n : nat) (req : Body) (w : World)
    (registration : Registrations.row) (others : list Registrations.row)
    (schedule : list nat) :
  truthy (robloxUsername req) = true ->
  filter (has_username (param (robloxUsername req))) (registrations (committed w))
  = registration :: others ->
  filter (linked_to (Registrations.id registration)) (generatedkeys (committed w)) = [] ->
  existsb (has_serial (candidate w)) (generatedkeys (committed w)) = false ->
  I1 (committed w) ->
  I1 (tables (run schedule (launch n (fun _ => req) w))).
Proof.
  intros Ht Hreg Hnokey Hfresh HI.
  destruct (run_preserves Ht Hreg Hnokey Hfresh schedule
              (launch_Inv n req w registration others)) as [ph H].
  intros rid0. rewrite (inv_keys H). destruct ph; try apply HI.
  exact (@I1_insert_linked (committed w) (registrations (committed w))
           (generatedkeys_id_seq w) (clock w) (Registrations.id registration)
           (candidate w) HI Hnokey rid0).
Qed.

Lemma concurrent_requests_keep_I1_witness :
  I1 (tables (run in_turn (launch 3 (fun _ => issue_player_1) world_registered))).
Proof.
  apply (@concurrent_requests_keep_I1 3 issue_player_1 world_registered player_1 []
           in_turn eq_refl eq_refl eq_refl eq_refl).
  intros rid. cbn. lia.
Defined.

(** C2, as the code has it. [n] requests for one registration that has no
    key yet arrive together; the storage is healthy and the serial that is
    drawn is not stored already. Then the requests can all be answered, and
    however their statements interleave, once they are: one request, the
    winner, has sent the one [INSERT] and is answered 200 with the serial;
    every other request is answered 400 with that same serial; the
    registration has exactly one key row, which holds it; and no row is
    left pending or locked. *)
Theorem concurrent_requests_issue_one_key :
  forall (n : nat) (req : Body) (w : World)
         (registration : Registrations.row) (others : list Registrations.row),
    0 < n ->
    truthy (robloxUsername req) = true ->
    filter (has_username (param (robloxUsername req))) (registrations (committed w))
    = registration :: others ->
    filter (linked_to (Registrations.id registration)) (generatedkeys (committed w)) = [] ->
    existsb (has_serial (candidate w)) (generatedkeys (committed w)) = false ->
    all_done (run (one_by_one n) (launch n (fun _ => req) w)) = true
    /\ forall schedule : list nat,
         let s := run schedule (launch n (fun _ => req) w) in
         all_done s = true ->
         exists winner : nat,
           winner < n
           /\ pc s winner = Done (serial_key_generated (candidate w))
           /\ (forall j, j < n -> j <> winner ->
                 pc s j = Done (serial_key_already_generated (candidate w)))
           /\ generatedkeys (tables s)
              = generatedkeys (committed w) ++ [issued_key w registration]
           /\ filter (linked_to (Registrations.id registration)) (generatedkeys (tables s))
              = [issued_key w registration]
           /\ inserts (sent s)
              = [(winner, InsertKey (Registrations.id registration) (candidate w))]
           /\ pending s = []
           /\ locks s = [].
Proof.
  intros n req w registration others Hn Ht Hreg Hnokey Hfresh. split.
  - apply (@one_by_one_completes n req w registration others Ht Hreg Hnokey Hfresh).
  - intros schedule s Hdone.
    destruct (@every_complete_run n req w registration others Ht Hreg Hnokey Hfresh
                schedule Hdone Hn)
      as [win (Hw & Hpc & Hothers & Hkeys & Hlinked & Hins & Hpend & Hlocks)].
    exists win. repeat split; assumption.
Qed.

Lemma concurrent_requests_issue_one_key_witness :
  exists winner : nat,
    winner < 3
    /\ pc (run in_turn (launch 3 (fun _ => issue_player_1) world_registered)) winner
       = Done (serial_key_generated (candidate world_registered))
    /\ (forall j, j < 3 -> j <> winner ->
          pc (run in_turn (launch 3 (fun _ => issue_player_1) world_registered)) j
          = Done (serial_key_already_generated (candidate world_registered)))
    /\ generatedkeys
         (tables (run in_turn (launch 3 (fun _ => issue_player_1) world_registered)))
       = generatedkeys (committed world_registered)
           ++ [issued_key world_registered player_1]
    /\ filter (linked_to (Registrations.id player_1))
         (generatedkeys
            (tables (run in_turn (launch 3 (fun _ => issue_player_1) world_registered))))
       = [issued_key world_registered player_1]
    /\ inserts (sent (run in_turn (launch 3 (fun _ => issue_player_1) world_registered)))
       = [(winner, InsertKey (Registrations.id player_1) (candidate world_registered))]
    /\ pending (run in_turn (launch 3 (fun _ => issue_player_1) world_registered)) = []
    /\ locks (run in_turn (launch 3 (fun _ => issue_player_1) world_registered)) = [].
Proof.
  apply (proj2 (@concurrent_requests_issue_one_key 3 issue_player_1 world_registered
                  player_1 [] (Nat.lt_0_succ 2) eq_refl eq_refl eq_refl eq_refl)
           in_turn).
  vm_compute. reflexivity.
Defined.

(** C2 as stated fails: two requests for [Player_1], one after the other,
    when the first serial drawn is already stored. The first request is
    answered with the internal error and no serial, the second with a new
    serial, and each of the two has found no key and sent an [INSERT]. *)
Lemma concurrent_requests_disagree_after_a_collision :
  all_done (run (one_by_one 2) (launch 2 (fun _ => issue_player_1) world_collision))
  = true
  /\ pc (run (one_by_one 2) (launch 2 (fun _ => issue_player_1) world_collision)) 0
     = Done internal_server_error
  /\ pc (run (one_by_one 2) (launch 2 (fun _ => issue_player_1) world_collision)) 1
     = Done (serial_key_generated (lit "scriptxserial_m2c8v5t1y6rq7w4e9r2t5u"))
  /\ inserts (sent (run (one_by_one 2)
                      (launch 2 (fun _ => issue_player_1) world_collision)))
     = [(1, InsertKey 1 (lit "scriptxserial_m2c8v5t1y6rq7w4e9r2t5u"));
        (0, InsertKey 1 (lit "scriptxserial_k3j9x0a7q1bz81hd02nm4p"))].
Proof. repeat split; vm_compute; reflexivity. Qed.

(** One request alone is answered by the machine as by the handler. *)
Example one_request_alone :
  fst (generate_serial issue_player_1 world_registered)
  = Ok (serial_key_generated (candidate world_registered))
  /\ pc (run (one_by_one 1) (launch 1 (fun _ => issue_player_1) world_registered)) 0
     = Done (serial_key_generated (candidate world_registered))
  /\ tables (run (one_by_one 1) (launch 1 (fun _ => issue_player_1) world_registered))
     = committed (snd (generate_serial issue_player_1 world_registered)).
Proof. repeat split; vm_compute; reflexivity. Qed.
